(** * Lookup cache of the AWS provider (pkg/cloudprovider/provider/aws/helper.go)

    A shallow embedding of [getVpc] and [getDefaultAMIID]: the two lookups
    that sit behind the package-level [cacheLock] and [cache], together
    with the effects they perform (lock, cache read, cache write, the two
    EC2 queries), a small-step semantics for goroutines running them, and
    the properties of the lookup cache proved over that embedding. *)

From Stdlib Require Import ZArith String Ascii List Bool Lia.
From stdpp Require Import base option list gmap strings.
Import ListNotations.

Local Open Scope string_scope.
Local Open Scope Z_scope.

(** ** Data *)

(** [providerconfig.OperatingSystem] is a named string type. *)
Definition OperatingSystem : Type := string.

(** [type amiFilter struct { description string; owner string }] *)
Record amiFilter : Type := mkAmiFilter {
  description : string;
  owner : string
}.

(** Modelled from the spec: the SDK's [ec2.Vpc] and [ec2.Image] are not
    part of the sources; section 6 of the specification gives a network
    descriptor as an opaque value found by its identifier, and an image
    candidate as an identifier with a creation timestamp in text form. *)
Record Vpc : Type := mkVpc {
  VpcId : string;
  CidrBlock : string
}.

(** Modelled from the spec: an image candidate of section 6, an identifier
    and a creation timestamp in text form ([ec2.Image] is not part of the
    sources). *)
Record Image : Type := mkImage {
  ImageId : string;
  CreationDate : string
}.

(** [ec2.Filter], [ec2.DescribeVpcsInput], [ec2.DescribeImagesInput] and
    the two outputs, with the fields the code reads and writes. *)
Record Filter : Type := mkFilter {
  Name : string;
  Values : list string
}.

Record DescribeVpcsInput : Type := mkDescribeVpcsInput {
  VpcsFilters : list Filter
}.

Record DescribeVpcsOutput : Type := mkDescribeVpcsOutput {
  Vpcs : list Vpc
}.

Record DescribeImagesInput : Type := mkDescribeImagesInput {
  Owners : list string;
  ImagesFilters : list Filter
}.

Record DescribeImagesOutput : Type := mkDescribeImagesOutput {
  Images : list Image
}.

(** The [*ec2.EC2] client: the code reads [*client.Config.Region]. *)
Record EC2 : Type := mkEC2 {
  Region : string
}.

(** Go [error] values that reach the callers of the two lookups: an error
    handed back by the SDK, an error built by [fmt.Errorf] (kept as its
    format and arguments), and the result of [awsErrorToTerminalError]. *)
Inductive error : Type :=
| SdkError (code : string)
| Errorf (format : string) (args : list string)
| WithContext (msg : string) (cause : error).

(** Modelled from the spec: [awsErrorToTerminalError] lives in another file
    of the package; section 7 of the specification says an upstream error
    is wrapped with context identifying which operation failed and the
    underlying failure is surfaced verbatim. *)
Definition awsErrorToTerminalError (err : error) (msg : string) : error :=
  WithContext msg err.

(** An error that carries the context of the operation that failed. *)
Definition has_context (e : error) : bool :=
  match e with
  | WithContext _ _ => true
  | _ => false
  end.

(** The [interface{}] values the code puts in the cache: a [*ec2.Vpc] or a
    [string]. *)
Inductive value : Type :=
| VVpc (vpc : Vpc)
| VString (s : string).

(** ** The time-bounded store *)

(** [time.Duration] and [UnixNano] readings are nanosecond counts. *)
Definition Minute : Z := 60 * 1000000000.

(** Modelled from the spec: a cache entry of section 3, the stored value
    with the expiration set when it was written (the store is a dependency
    that is not part of the sources). *)
Record Item : Type := mkItem {
  Object : value;
  Expiration : Z
}.

(** Modelled from the spec: the store of section 4.1, its entries and the
    TTL fixed at construction. *)
Record Cache : Type := mkCache {
  defaultExpiration : Z;
  items : gmap string Item
}.

(** Modelled from the spec: [gocache.New] is not part of the sources;
    section 4.1 of the specification fixes the TTL when the store is
    constructed, and the store starts empty. *)
Definition New (defaultExpiration cleanupInterval : Z) : Cache :=
  {| defaultExpiration := defaultExpiration; items := ∅ |}.

(** Modelled from the spec: [Get] of section 4.1 is a miss when the key was
    never set or the entry's expiration has passed, which property 3 of
    section 8 fixes as a read at or after the deadline; the expiration is
    checked at read time. *)
Definition Get (now : Z) (c : Cache) (k : string) : option value :=
  match items c !! k with
  | Some it => if now <? Expiration it then Some (Object it) else None
  | None => None
  end.

(** Modelled from the spec: [Set] of section 4.1 stores the value with an
    expiration of now plus the default TTL, replacing any previous entry. *)
Definition SetDefault (now : Z) (c : Cache) (k : string) (x : value) : Cache :=
  {| defaultExpiration := defaultExpiration c;
     items := <[k := {| Object := x; Expiration := now + defaultExpiration c |}]> (items c) |}.

(** Modelled from the spec: the sweep that section 4.1 allows at any time;
    it reclaims the entries whose expiration has passed. *)
Definition DeleteExpired (now : Z) (c : Cache) : Cache :=
  {| defaultExpiration := defaultExpiration c;
     items := filter (λ kv, now < Expiration kv.2) (items c) |}.

(** [cache = gocache.New(5*time.Minute, 5*time.Minute)] *)
Definition cache0 : Cache := New (5 * Minute) (5 * Minute).

(** What may happen to the store between a write and a later read of a key:
    sweeps, and writes (each at its own clock reading). *)
Inductive StoreOp : Type :=
| OpSweep (now : Z)
| OpSet (now : Z) (k : string) (x : value).

Definition applyOp (c : Cache) (o : StoreOp) : Cache :=
  match o with
  | OpSweep now => DeleteExpired now c
  | OpSet now k x => SetDefault now c k x
  end.

Definition applyOps (ops : list StoreOp) (c : Cache) : Cache :=
  fold_left applyOp ops c.

(** An operation that leaves key [k] alone when read at time [t]: a sweep no
    later than [t], or a write to another key. *)
Definition spares (k : string) (t : Z) (o : StoreOp) : Prop :=
  match o with
  | OpSweep now => now <= t
  | OpSet _ k' _ => k' ≠ k
  end.

(** ** Cache keys *)

(** [fmt.Sprintf("vpc-%s-%s", *client.Config.Region, id)] *)
Definition vpcCacheKey (region id : string) : string :=
  "vpc-" +:+ region +:+ "-" +:+ id.

(** [fmt.Sprintf("ami-id-%s-%s", *client.Config.Region, os)] *)
Definition amiCacheKey (region : string) (os : OperatingSystem) : string :=
  "ami-id-" +:+ region +:+ "-" +:+ os.

(** The two lookups, with the key each of them computes. *)
Inductive Lookup : Type :=
| LookupVpc (region id : string)
| LookupAMI (region : string) (os : OperatingSystem).

Definition cacheKey (l : Lookup) : string :=
  match l with
  | LookupVpc region id => vpcCacheKey region id
  | LookupAMI region os => amiCacheKey region os
  end.

Definition sameOperation (a b : Lookup) : bool :=
  match a, b with
  | LookupVpc _ _, LookupVpc _ _ => true
  | LookupAMI _ _, LookupAMI _ _ => true
  | _, _ => false
  end.

Definition lookupRegion (l : Lookup) : string :=
  match l with
  | LookupVpc region _ => region
  | LookupAMI region _ => region
  end.

Definition lookupParam (l : Lookup) : string :=
  match l with
  | LookupVpc _ id => id
  | LookupAMI _ os => os
  end.

(** ** Time *)

(** Go's [time.Time] as the code uses it: seconds and nanoseconds since
    January 1, year 1, 00:00:00 UTC (the values of [t.sec()] and
    [t.nsec()]); parsed times carry no monotonic reading. *)
Record Time : Type := mkTime {
  sec : Z;
  nsec : Z
}.

(** [time.Time{}], which [time.Parse] returns along with its error. *)
Definition zeroTime : Time := {| sec := 0; nsec := 0 |}.

(** [func (t Time) After(u Time) bool]:
    [ts > us || ts == us && t.nsec() > u.nsec()] *)
Definition After (t u : Time) : bool :=
  (sec u <? sec t) || ((sec t =? sec u) && (nsec u <? nsec t)).

(** [time.RFC3339] *)
Definition RFC3339 : string := "2006-01-02T15:04:05Z07:00".

(** *** Timestamps in canonical UTC form

    The timestamps of the form [YYYY-MM-DDTHH:MM:SSZ], read the way
    [time.Parse(time.RFC3339, _)] reads them: a four-digit year from 0000
    on, month, day of that month, hour, minute and second in their ranges,
    in the proleptic Gregorian calendar, as seconds since January 1 of
    year 1.  Other forms that [time.Parse] accepts (offsets, fractions of a
    second) are left out: the function serves the concrete examples below,
    and everything else is proved for an arbitrary [time.Parse]. *)

Definition digit (c : ascii) : option Z :=
  let n := Z.of_nat (nat_of_ascii c) in
  if (48 <=? n) && (n <=? 57) then Some (n - 48) else None.

Definition number (cs : list ascii) : option Z :=
  fold_left (λ acc c, a ← acc; d ← digit c; Some (10 * a + d)) cs (Some 0).

Definition isLeap (year : Z) : bool :=
  (year mod 4 =? 0) && (negb (year mod 100 =? 0) || (year mod 400 =? 0)).

Definition daysIn (month year : Z) : Z :=
  if month =? 2 then (if isLeap year then 29 else 28)
  else if (month =? 4) || (month =? 6) || (month =? 9) || (month =? 11) then 30
  else 31.

Fixpoint daysBefore (month : nat) (year : Z) : Z :=
  match month with
  | O => 0
  | S m => daysBefore m year + daysIn (Z.of_nat (S m)) year
  end.

(** Days from January 1, year 1 to January 1 of [year] in the proleptic
    Gregorian calendar. *)
Definition daysSinceEpoch (year : Z) : Z :=
  let y := year - 1 in
  365 * y + y / 4 - y / 100 + y / 400.

Definition canonicalUTC (value : string) : Time + error :=
  let bad := inr (Errorf "parsing time %q as %q" [value; RFC3339]) in
  match list_ascii_of_string value with
  | [y1; y2; y3; y4; p1; m1; m2; p2; d1; d2; pT; h1; h2; p3; n1; n2; p4; s1; s2; pZ] =>
    if Ascii.eqb p1 "-" && Ascii.eqb p2 "-" && Ascii.eqb pT "T"
       && Ascii.eqb p3 ":" && Ascii.eqb p4 ":" && Ascii.eqb pZ "Z"
    then
      match number [y1; y2; y3; y4], number [m1; m2], number [d1; d2],
            number [h1; h2], number [n1; n2], number [s1; s2] with
      | Some year, Some month, Some day, Some hour, Some min, Some s =>
        if (1 <=? month) && (month <=? 12) && (1 <=? day) && (day <=? daysIn month year)
           && (hour <? 24) && (min <? 60) && (s <? 60)
        then
          let days := daysSinceEpoch year + daysBefore (Z.to_nat (month - 1)) year + (day - 1) in
          inl {| sec := days * 86400 + hour * 3600 + min * 60 + s; nsec := 0 |}
        else bad
      | _, _, _, _, _, _ => bad
      end
    else bad
  | _ => bad
  end.

(** ** Effects *)

(** A call of one of the two lookups as the tree of the effects it performs
    on the package-level [cacheLock] and [cache] and on the EC2 client; each
    effect hands its result to the rest of the call.  [Panic] is a failed
    type assertion or an index out of range. *)
Inductive prog (R : Type) : Type :=
| Ret (r : R)
| Panic
| Lock (k : prog R)
| Unlock (k : prog R)
| CacheGet (key : string) (k : option value → prog R)
| CacheSetDefault (key : string) (x : value) (k : prog R)
| DescribeVpcs (client : EC2) (input : DescribeVpcsInput)
    (k : DescribeVpcsOutput + error → prog R)
| DescribeImages (client : EC2) (input : DescribeImagesInput)
    (k : DescribeImagesOutput + error → prog R).

Arguments Ret {R} r.
Arguments Panic {R}.
Arguments Lock {R} k.
Arguments Unlock {R} k.
Arguments CacheGet {R} key k.
Arguments CacheSetDefault {R} key x k.
Arguments DescribeVpcs {R} client input k.
Arguments DescribeImages {R} client input k.

(** [defer cacheLock.Unlock()]: the unlock runs when the rest of the call
    returns, and when it panics. *)
Fixpoint defer_Unlock {R : Type} (p : prog R) : prog R :=
  match p with
  | Ret r => Unlock (Ret r)
  | Panic => Unlock Panic
  | Lock k => Lock (defer_Unlock k)
  | Unlock k => Unlock (defer_Unlock k)
  | CacheGet key k => CacheGet key (λ x, defer_Unlock (k x))
  | CacheSetDefault key x k => CacheSetDefault key x (defer_Unlock k)
  | DescribeVpcs client input k => DescribeVpcs client input (λ x, defer_Unlock (k x))
  | DescribeImages client input k => DescribeImages client input (λ x, defer_Unlock (k x))
  end.

(** A stretch of code that does not touch [cacheLock] itself. *)
Fixpoint nolock {R : Type} (p : prog R) : Prop :=
  match p with
  | Ret _ | Panic => True
  | Lock _ | Unlock _ => False
  | CacheGet _ k => ∀ x, nolock (k x)
  | CacheSetDefault _ _ k => nolock k
  | DescribeVpcs _ _ k => ∀ x, nolock (k x)
  | DescribeImages _ _ k => ∀ x, nolock (k x)
  end.

Definition finished {R : Type} (p : prog R) : bool :=
  match p with
  | Ret _ | Panic => true
  | _ => false
  end.

(** ** getVpc *)

Definition describeVpcsInput (id : string) : DescribeVpcsInput :=
  {| VpcsFilters := [ {| Name := "vpc-id"; Values := [id] |} ] |}.

Definition getVpcBody (client : EC2) (id : string) : prog (Vpc + error) :=
  let cacheKey := vpcCacheKey (Region client) id in
  CacheGet cacheKey (λ found,
    match found with
    | Some (VVpc vpc) => Ret (inl vpc)
    | Some _ => Panic
    | None =>
      DescribeVpcs client (describeVpcsInput id) (λ r,
          match r with
          | inr err => Ret (inr (awsErrorToTerminalError err "failed to list vpc's"))
          | inl vpcOut =>
            if negb (length (Vpcs vpcOut) =? 1)%nat
            then Ret (inr (Errorf "unable to find specified vpc with id %q" [id]))
            else
              match Vpcs vpcOut with
              | vpc0 :: _ => CacheSetDefault cacheKey (VVpc vpc0) (Ret (inl vpc0))
              | [] => Panic
              end
          end)
    end).

Definition getVpc (client : EC2) (id : string) : prog (Vpc + error) :=
  Lock (defer_Unlock (getVpcBody client id)).

(** ** getDefaultAMIID *)

(** What the file takes from packages that are not part of the sources: the
    three [providerconfig.OperatingSystem] constants that key [amiFilters],
    and the standard library's [time.Parse], which returns the parsed time
    or an error along with [time.Time{}]. *)
Class Imports : Type := {
  OperatingSystemCoreos : OperatingSystem;
  OperatingSystemCentOS : OperatingSystem;
  OperatingSystemUbuntu : OperatingSystem;
  time_Parse : string → string → Time + error
}.

(** [itime, _ := time.Parse(time.RFC3339, s)]: the error is dropped and the
    time that comes with an error is [time.Time{}]. *)
Definition parsedOrZero `{Imports} (s : string) : Time :=
  match time_Parse RFC3339 s with
  | inl t => t
  | inr _ => zeroTime
  end.

Definition parses `{Imports} (s : string) : bool :=
  match time_Parse RFC3339 s with
  | inl _ => true
  | inr _ => false
  end.

Definition amiFilters `{Imports} : gmap OperatingSystem amiFilter :=
  list_to_map [
    (OperatingSystemCoreos,
      {| description := "CoreOS Container Linux stable*";
         owner := "595879546273" |});
    (OperatingSystemCentOS,
      {| description := "CentOS Linux 7 x86_64 HVM EBS*";
         owner := "679593333241" |});
    (OperatingSystemUbuntu,
      {| description := "Canonical, Ubuntu, 18.04 LTS, amd64 bionic image build on ????-??-??";
         owner := "099720109477" |})
  ].

(** One turn of the loop [for _, v := range imagesOut.Images]. *)
Definition newer `{Imports} (image v : Image) : Image :=
  let itime := parsedOrZero (CreationDate image) in
  let vtime := parsedOrZero (CreationDate v) in
  if After vtime itime then v else image.

(** The loop, started with [image := imagesOut.Images[0]]. *)
Definition newestImage `{Imports} (image0 : Image) (images : list Image) : Image :=
  fold_left newer images image0.

Definition describeImagesInput (filter : amiFilter) : DescribeImagesInput :=
  {| Owners := [owner filter];
     ImagesFilters := [
       {| Name := "description"; Values := [description filter] |};
       {| Name := "virtualization-type"; Values := ["hvm"] |};
       {| Name := "root-device-type"; Values := ["ebs"] |} ] |}.

Definition getDefaultAMIIDBody `{Imports} (client : EC2) (os : OperatingSystem)
  : prog (string + error) :=
  match amiFilters !! os with
  | None => Ret (inr (Errorf "operating system %q not supported" [os]))
  | Some filter =>
    let cacheKey := amiCacheKey (Region client) os in
    CacheGet cacheKey (λ found,
      match found with
      | Some (VString amiID) => Ret (inl amiID)
      | Some _ => Panic
      | None =>
        DescribeImages client (describeImagesInput filter) (λ r,
          match r with
          | inr err => Ret (inr err)
          | inl imagesOut =>
            if (length (Images imagesOut) =? 0)%nat
            then Ret (inr (Errorf "could not find Image for '%s'" [os]))
            else
              match Images imagesOut with
              | image0 :: _ =>
                let image := newestImage image0 (Images imagesOut) in
                CacheSetDefault cacheKey (VString (ImageId image)) (Ret (inl (ImageId image)))
              | [] => Panic
              end
          end)
      end)
  end.

Definition getDefaultAMIID `{Imports} (client : EC2) (os : OperatingSystem)
  : prog (string + error) :=
  Lock (defer_Unlock (getDefaultAMIIDBody client os)).

(** ** Running the effects *)

Inductive Event : Type :=
| EvLock
| EvUnlock
| EvGet (key : string)
| EvSet (key : string) (x : value)
| EvDescribeVpcs (client : EC2) (input : DescribeVpcsInput)
| EvDescribeImages (client : EC2) (input : DescribeImagesInput).

(** The shared state of the process: [cacheLock], [cache], and the effects
    performed so far, oldest first. *)
Record World : Type := mkWorld {
  locked : bool;
  cache : Cache;
  trace : list Event
}.

(** What the surroundings decide: the reading of the clock when the effect
    number [n] of the process runs, and what EC2 answers to a query made as
    effect number [n]. *)
Record Env : Type := mkEnv {
  clock : nat → Z;
  describeVpcs : nat → EC2 → DescribeVpcsInput → DescribeVpcsOutput + error;
  describeImages : nat → EC2 → DescribeImagesInput → DescribeImagesOutput + error
}.

Definition emit (e : Event) (w : World) : World :=
  {| locked := locked w; cache := cache w; trace := trace w ++ [e] |}.

(** One effect of a goroutine.  [Lock] on a held mutex does not step: the
    goroutine waits.  [Unlock] of a mutex that is not held is fatal. *)
Definition step {R : Type} (env : Env) (p : prog R) (w : World)
  : option (prog R * World) :=
  let n := length (trace w) in
  match p with
  | Ret _ | Panic => None
  | Lock k =>
    if locked w then None
    else Some (k, {| locked := true; cache := cache w; trace := trace w ++ [EvLock] |})
  | Unlock k =>
    if locked w
    then Some (k, {| locked := false; cache := cache w; trace := trace w ++ [EvUnlock] |})
    else Some (Panic, w)
  | CacheGet key k =>
    Some (k (Get (clock env n) (cache w) key), emit (EvGet key) w)
  | CacheSetDefault key x k =>
    Some (k, {| locked := locked w;
                cache := SetDefault (clock env n) (cache w) key x;
                trace := trace w ++ [EvSet key x] |})
  | DescribeVpcs client input k =>
    Some (k (describeVpcs env n client input), emit (EvDescribeVpcs client input) w)
  | DescribeImages client input k =>
    Some (k (describeImages env n client input), emit (EvDescribeImages client input) w)
  end.

Inductive Outcome (R : Type) : Type :=
| Returned (r : R)
| Panicked
| Blocked.

Arguments Returned {R} r.
Arguments Panicked {R}.
Arguments Blocked {R}.

(** A whole call run by one goroutine with nothing in between. *)
Fixpoint exec {R : Type} (env : Env) (p : prog R) (w : World) : Outcome R * World :=
  let n := length (trace w) in
  match p with
  | Ret r => (Returned r, w)
  | Panic => (Panicked, w)
  | Lock k =>
    if locked w then (Blocked, w)
    else exec env k {| locked := true; cache := cache w; trace := trace w ++ [EvLock] |}
  | Unlock k =>
    if locked w
    then exec env k {| locked := false; cache := cache w; trace := trace w ++ [EvUnlock] |}
    else (Panicked, w)
  | CacheGet key k =>
    exec env (k (Get (clock env n) (cache w) key)) (emit (EvGet key) w)
  | CacheSetDefault key x k =>
    exec env k {| locked := locked w;
                  cache := SetDefault (clock env n) (cache w) key x;
                  trace := trace w ++ [EvSet key x] |}
  | DescribeVpcs client input k =>
    exec env (k (describeVpcs env n client input)) (emit (EvDescribeVpcs client input) w)
  | DescribeImages client input k =>
    exec env (k (describeImages env n client input)) (emit (EvDescribeImages client input) w)
  end.

(** The same call made [n] times in a row. *)
Fixpoint exec_n {R : Type} (env : Env) (p : prog R) (n : nat) (w : World)
  : list (Outcome R) * World :=
  match n with
  | O => ([], w)
  | S n' =>
    let (o, w') := exec env p w in
    let (os, w'') := exec_n env p n' w' in
    (o :: os, w'')
  end.

(** *** Goroutines *)

(** The goroutines of the process, each with what is left of its call, and
    the shared state. *)
Definition Config (R : Type) : Type := list (prog R) * World.

(** The scheduler runs one effect of goroutine [tid]; a goroutine that waits
    for the lock or has returned does nothing. *)
Definition schedule {R : Type} (env : Env) (cfg : Config R) (tid : nat) : Config R :=
  match cfg.1 !! tid with
  | Some p =>
    match step env p cfg.2 with
    | Some (p', w') => (<[tid := p']> cfg.1, w')
    | None => cfg
    end
  | None => cfg
  end.

Definition run {R : Type} (env : Env) (sched : list nat) (cfg : Config R) : Config R :=
  fold_left (schedule env) sched cfg.

Definition outcome {R : Type} (p : prog R) : option (Outcome R) :=
  match p with
  | Ret r => Some (Returned r)
  | Panic => Some Panicked
  | _ => None
  end.

Definition isQuery (e : Event) : bool :=
  match e with
  | EvDescribeVpcs _ _ | EvDescribeImages _ _ => true
  | _ => false
  end.

(** How many times the external query was invoked. *)
Definition queries (t : list Event) : nat := length (List.filter isQuery t).

(** A reading of the store that misses at time [now]. *)
Definition misses (now : Z) (c : Cache) (k : string) : Prop :=
  Get now c k = None.

(** *** A call that starts in world [w]

    With the lock free, the call's [Lock] is effect number
    [length (trace w)], its [cache.Get] the next one, its query the one
    after, and its [cache.SetDefault] the one after that. *)

Definition getTime (env : Env) (w : World) : Z :=
  clock env (length (trace w) + 1).

Definition setTime (env : Env) (w : World) : Z :=
  clock env (length (trace w) + 3).

Definition vpcsAnswer (env : Env) (w : World) (client : EC2) (id : string)
  : DescribeVpcsOutput + error :=
  describeVpcs env (length (trace w) + 2) client (describeVpcsInput id).

Definition imagesAnswer (env : Env) (w : World) (client : EC2) (filter : amiFilter)
  : DescribeImagesOutput + error :=
  describeImages env (length (trace w) + 2) client (describeImagesInput filter).

(** The world after a call that wrote nothing: lock released, cache as it
    was, the call's effects appended. *)
Definition after (w : World) (evs : list Event) : World :=
  {| locked := false; cache := cache w; trace := trace w ++ evs |}.

(** The world after a call that wrote [x] under [key] at time [now]. *)
Definition afterSet (w : World) (now : Z) (key : string) (x : value)
    (evs : list Event) : World :=
  {| locked := false;
     cache := SetDefault now (cache w) key x;
     trace := trace w ++ evs |}.

Definition monotone (env : Env) : Prop :=
  ∀ i j : nat, (i <= j)%nat → clock env i <= clock env j.

(** All the clock readings of a run lie within one TTL of each other. *)
Definition withinTTL (env : Env) (ttl : Z) : Prop :=
  ∀ i j : nat, clock env i < clock env j + ttl.

(** *** Goroutines that make the same call

    Each goroutine is at the start of the call [P], or inside it with the
    lock, or has left it. *)

Definition countFinished {R : Type} (pool : list (prog R)) : nat :=
  length (List.filter finished pool).

(** The state of the goroutines, seen as calls made one after the other: the
    goroutines that have left the call are the first [k] of those calls, the
    shared state is the state after them, and at most one goroutine is
    inside the call, whose remaining effects complete call number [k]. *)
Definition serial {R : Type} (env : Env) (P : prog R) (w0 : World)
    (cfg : Config R) : Prop :=
  let k := countFinished cfg.1 in
  (∀ i p, cfg.1 !! i = Some p → finished p = true →
          ∃ o, outcome p = Some o ∧ In o (exec_n env P k w0).1)
  ∧ ((locked cfg.2 = false
      ∧ cfg.2 = (exec_n env P k w0).2
      ∧ ∀ i p, cfg.1 !! i = Some p → finished p = false → p = P)
     ∨ (locked cfg.2 = true
        ∧ ∃ tid q,
            cfg.1 !! tid = Some (defer_Unlock q)
            ∧ nolock q
            ∧ (∀ i p, i ≠ tid → cfg.1 !! i = Some p → finished p = false → p = P)
            ∧ exec env (defer_Unlock q) cfg.2 = exec env P (exec_n env P k w0).2)).

(** ** getDefaultRootDevicePath *)

(** The [switch os] tries its cases in the order they are written. *)
Definition getDefaultRootDevicePath `{Imports} (os : OperatingSystem) : string + error :=
  if String.eqb os OperatingSystemUbuntu then inl "/dev/sda1"
  else if String.eqb os OperatingSystemCentOS then inl "/dev/sda1"
  else if String.eqb os OperatingSystemCoreos then inl "/dev/xvda"
  else inr (Errorf "no default root path found for %s operating system" [os]).

(** ** Calls of either lookup *)

Inductive Call : Type :=
| CallVpc (client : EC2) (id : string)
| CallAMI (client : EC2) (os : OperatingSystem).

Inductive CallResult : Type :=
| VpcResult (o : Outcome (Vpc + error))
| AMIResult (o : Outcome (string + error)).

(** The key the call computes. *)
Definition callKey (c : Call) : string :=
  match c with
  | CallVpc client id => vpcCacheKey (Region client) id
  | CallAMI client os => amiCacheKey (Region client) os
  end.

Definition execCall `{Imports} (env : Env) (c : Call) (w : World) : CallResult * World :=
  match c with
  | CallVpc client id =>
    let (o, w') := exec env (getVpc client id) w in (VpcResult o, w')
  | CallAMI client os =>
    let (o, w') := exec env (getDefaultAMIID client os) w in (AMIResult o, w')
  end.

(** Calls made one after the other. *)
Fixpoint execCalls `{Imports} (env : Env) (cs : list Call) (w : World)
  : list CallResult * World :=
  match cs with
  | [] => ([], w)
  | c :: cs' =>
    let (r, w') := execCall env c w in
    let (rs, w'') := execCalls env cs' w' in
    (r :: rs, w'')
  end.

(** The value a call returned, as the cache would hold it. *)
Definition returnedValue (r : CallResult) : option value :=
  match r with
  | VpcResult (Returned (inl vpc)) => Some (VVpc vpc)
  | AMIResult (Returned (inl amiID)) => Some (VString amiID)
  | _ => None
  end.

Definition panicked (r : CallResult) : bool :=
  match r with
  | VpcResult Panicked | AMIResult Panicked => true
  | _ => false
  end.

Definition blocked (r : CallResult) : bool :=
  match r with
  | VpcResult Blocked | AMIResult Blocked => true
  | _ => false
  end.

(** The dynamic type the call asserts on what it reads from the cache. *)
Definition asserted (c : Call) (x : value) : bool :=
  match c, x with
  | CallVpc _ _, VVpc _ => true
  | CallAMI _ _, VString _ => true
  | _, _ => false
  end.

Definition isSet (e : Event) : bool :=
  match e with
  | EvSet _ _ => true
  | _ => false
  end.

(** How many times the cache was written. *)
Definition writes (t : list Event) : nat := length (List.filter isSet t).

(** Every entry sits under a key of the lookup that stores its type. *)
Definition wellTyped (c : Cache) : Prop :=
  ∀ k it, items c !! k = Some it →
    match Object it with
    | VVpc _ => String.prefix "vpc-" k = true
    | VString _ => String.prefix "ami-id-" k = true
    end.

(** A call the package can serve: any network lookup, and an image lookup
    for an operating system that has its filter. *)
Definition supported `{Imports} (c : Call) : Prop :=
  match c with
  | CallVpc _ _ => True
  | CallAMI _ os => is_Some (amiFilters !! os)
  end.

(** Every entry was written at some reading of the clock of this run. *)
Definition fromRun (env : Env) (c : Cache) : Prop :=
  ∀ k it, items c !! k = Some it →
    ∃ n : nat, Expiration it = clock env n + defaultExpiration c.

(** *** Goroutines that make any of the calls *)

(** A goroutine in a call of [getVpc] or in a call of [getDefaultAMIID], with
    what is left of the call. *)
Inductive Goroutine : Type :=
| GoVpc (p : prog (Vpc + error))
| GoAMI (p : prog (string + error)).

Definition spawn `{Imports} (c : Call) : Goroutine :=
  match c with
  | CallVpc client id => GoVpc (getVpc client id)
  | CallAMI client os => GoAMI (getDefaultAMIID client os)
  end.

Definition stepG (env : Env) (g : Goroutine) (w : World) : option (Goroutine * World) :=
  match g with
  | GoVpc p =>
    match step env p w with
    | Some (p', w') => Some (GoVpc p', w')
    | None => None
    end
  | GoAMI p =>
    match step env p w with
    | Some (p', w') => Some (GoAMI p', w')
    | None => None
    end
  end.

Definition scheduleG (env : Env) (cfg : list Goroutine * World) (tid : nat)
  : list Goroutine * World :=
  match cfg.1 !! tid with
  | Some g =>
    match stepG env g cfg.2 with
    | Some (g', w') => (<[tid := g']> cfg.1, w')
    | None => cfg
    end
  | None => cfg
  end.

Definition runG (env : Env) (sched : list nat) (cfg : list Goroutine * World)
  : list Goroutine * World :=
  fold_left (scheduleG env) sched cfg.

(** A goroutine about to take the lock. *)
Definition waiting {R : Type} (p : prog R) : bool :=
  match p with
  | Lock _ => true
  | _ => false
  end.

(** A goroutine between its [Lock] and the end of its call. *)
Definition inside {R : Type} (p : prog R) : bool :=
  negb (waiting p) && negb (finished p).

Definition insideG (g : Goroutine) : bool :=
  match g with
  | GoVpc p => inside p
  | GoAMI p => inside p
  end.

Definition finishedG (g : Goroutine) : bool :=
  match g with
  | GoVpc p => finished p
  | GoAMI p => finished p
  end.

(** What is left of a call [Lock; defer Unlock; body]: the whole call, the
    rest of the body with the unlock to come, or nothing. *)
Definition wellFormed {R : Type} (p : prog R) : Prop :=
  finished p = true
  ∨ ∃ q, nolock q ∧ (p = Lock (defer_Unlock q) ∨ p = defer_Unlock q).

Definition wellFormedG (g : Goroutine) : Prop :=
  match g with
  | GoVpc p => wellFormed p
  | GoAMI p => wellFormed p
  end.

(** The lock is held exactly while one goroutine is inside its call. *)
Definition exclusive (cfg : list Goroutine * World) : Prop :=
  (∀ i g, cfg.1 !! i = Some g → wellFormedG g)
  ∧ (locked cfg.2 = false → ∀ i g, cfg.1 !! i = Some g → insideG g = false)
  ∧ (locked cfg.2 = true →
     ∃ tid g, cfg.1 !! tid = Some g ∧ insideG g = true
              ∧ ∀ j g', j ≠ tid → cfg.1 !! j = Some g' → insideG g' = false).

(** * Container runtime (pkg/userdata/helper/container_runtime.go) *)

(** The characters that cannot be written inside a string here. *)
Definition nl : string := String (ascii_of_nat 10) EmptyString.

Definition dquote : string := String (ascii_of_nat 34) EmptyString.

(** The lines of a text, joined by newlines. *)
Fixpoint joinLines (ls : list string) : string :=
  match ls with
  | [] => EmptyString
  | [l] => l
  | l :: ls' => l +:+ nl +:+ joinLines ls'
  end.

(** [dockerSystemdUnitTpl], the lines before the action [{{ if .SetTasksMax }}]. *)
Definition unitTplHead : list string :=
  [ "[Unit]";
    "Description=Docker Application Container Engine";
    "Documentation=https://docs.docker.com";
    "After=network-online.target docker.socket firewalld.service";
    "Wants=network-online.target";
    "Requires=docker.socket";
    EmptyString;
    "[Service]";
    "Environment=" +:+ dquote
      +:+ "PATH=/opt/bin:/bin:/usr/local/sbin:/usr/local/bin:/usr/sbin:/usr/bin:/sbin/"
      +:+ dquote;
    "Type=notify";
    "# the default is not to use systemd for cgroups because the delegate issues still";
    "# exists and systemd currently does not support the cgroup feature set required";
    "# for containers run by docker";
    "ExecStart=/opt/bin/dockerd -H fd://";
    "ExecReload=/bin/kill -s HUP $MAINPID";
    "LimitNOFILE=1048576";
    "# Having non-zero Limit*s causes performance problems due to accounting overhead";
    "# in the kernel. We recommend using cgroups to do container-local accounting.";
    "LimitNPROC=infinity";
    "LimitCORE=infinity";
    "# Uncomment TasksMax if your systemd version supports it.";
    "# Only systemd 226 and above support this version." ].

(** [dockerSystemdUnitTpl], the lines after the action [{{ end }}]. *)
Definition unitTplTail : list string :=
  [ "TimeoutStartSec=0";
    "# set delegate yes so that systemd does not reset the cgroups of docker containers";
    "Delegate=yes";
    "# kill only the docker process, not all processes in the cgroup";
    "KillMode=process";
    "# restart the docker process if it exits prematurely";
    "Restart=on-failure";
    "StartLimitBurst=3";
    "StartLimitInterval=60s";
    EmptyString;
    "[Install]";
    "WantedBy=multi-user.target" ].

(** [const dockerSystemdUnitTpl], line by line. *)
Definition dockerSystemdUnitTpl : string :=
  joinLines (unitTplHead
             ++ ["{{ if .SetTasksMax }}"; "TasksMax=infinity"; "{{ end }}"]
             ++ unitTplTail)%list.

(** ** text/template

    The part of Go's [text/template] that the unit template uses: text
    outside the delimiters is copied, [{{ if .Field }}] keeps its body when
    the boolean field of the data is true and drops it otherwise, [{{ end }}]
    closes it.  Errors are reported as their message. *)

Inductive Token : Type :=
| TText (s : string)
| TIf (field : string)
| TEnd
| TOther (action : string).

Inductive Node : Type :=
| NText (s : string)
| NIf (field : string) (body : list Node).

(** Splits [s] at the first occurrence of [sep]. *)
Definition cut (sep s : string) : option (string * string) :=
  match String.index 0 sep s with
  | Some n =>
    Some (String.substring 0 n s,
          String.substring (n + String.length sep)
            (String.length s - n - String.length sep) s)
  | None => None
  end.

(** The words of an action, separated by spaces. *)
Fixpoint words (cur s : string) : list string :=
  match s with
  | EmptyString => if String.eqb cur EmptyString then [] else [cur]
  | String c s' =>
    if Ascii.eqb c " "
    then (if String.eqb cur EmptyString then words EmptyString s'
          else cur :: words EmptyString s')
    else words (cur +:+ String c EmptyString) s'
  end.

Definition classify (action : string) : Token :=
  match words EmptyString action with
  | ["end"] => TEnd
  | ["if"; String "." field] => TIf field
  | _ => TOther action
  end.

Fixpoint lex (fuel : nat) (s : string) : list Token + string :=
  match fuel with
  | O => inr "template: out of fuel"
  | S fuel' =>
    match cut "{{" s with
    | None => inl [TText s]
    | Some (text, rest) =>
      match cut "}}" rest with
      | None => inr "template: unclosed action"
      | Some (action, rest') =>
        match lex fuel' rest' with
        | inl ts => inl (TText text :: classify action :: ts)
        | inr e => inr e
        end
      end
    end
  end.

(** Nodes up to the next [{{ end }}] that is not inside an [if], and what
    follows them. *)
Fixpoint parseList (fuel : nat) (ts : list Token) : (list Node * list Token) + string :=
  match fuel with
  | O => inr "template: out of fuel"
  | S fuel' =>
    match ts with
    | [] => inl ([], [])
    | TEnd :: _ => inl ([], ts)
    | TText s :: ts' =>
      match parseList fuel' ts' with
      | inl (ns, rest) => inl (NText s :: ns, rest)
      | inr e => inr e
      end
    | TIf field :: ts' =>
      match parseList fuel' ts' with
      | inl (body, TEnd :: rest) =>
        match parseList fuel' rest with
        | inl (ns, rest') => inl (NIf field body :: ns, rest')
        | inr e => inr e
        end
      | inl (_, _) => inr "template: unexpected EOF"
      | inr e => inr e
      end
    | TOther action :: _ => inr ("template: unsupported action " +:+ action)
    end
  end.

(** [template.New(name).Funcs(funcs).Parse(text)]; the unit template calls
    no function. *)
Definition template_Parse (text : string) : list Node + string :=
  match lex (S (String.length text)) text with
  | inr e => inr e
  | inl ts =>
    match parseList (S (length ts)) ts with
    | inl (ns, []) => inl ns
    | inl (_, _ :: _) => inr "template: unexpected {{end}}"
    | inr e => inr e
    end
  end.

Definition field (name : string) (data : list (string * bool)) : option bool :=
  snd <$> List.find (λ kv, String.eqb kv.1 name) data.

Fixpoint executeNode (data : list (string * bool)) (n : Node) : string + string :=
  match n with
  | NText s => inl s
  | NIf name body =>
    match field name data with
    | None => inr ("template: can't evaluate field " +:+ name)
    | Some false => inl EmptyString
    | Some true =>
      (fix executeList (ns : list Node) : string + string :=
         match ns with
         | [] => inl EmptyString
         | n' :: ns' =>
           match executeNode data n' with
           | inr e => inr e
           | inl a =>
             match executeList ns' with
             | inr e => inr e
             | inl b => inl (a +:+ b)
             end
           end
         end) body
    end
  end.

(** [tmpl.Execute(b, data)], giving what was written to [b]. *)
Fixpoint template_Execute (ns : list Node) (data : list (string * bool)) : string + string :=
  match ns with
  | [] => inl EmptyString
  | n :: ns' =>
    match executeNode data n with
    | inr e => inr e
    | inl a =>
      match template_Execute ns' data with
      | inr e => inr e
      | inl b => inl (a +:+ b)
      end
    end
  end.

(** ** DockerSystemdUnit *)

Definition DockerSystemdUnit (setTasksMax : bool) : string + error :=
  match template_Parse dockerSystemdUnitTpl with
  | inr err => inr (Errorf "failed to parse docker-systemd-unit template: %v" [err])
  | inl tmpl =>
    match template_Execute tmpl [("SetTasksMax", setTasksMax)] with
    | inr err => inr (Errorf "failed to execute docker-systemd-unit template: %v" [err])
    | inl b => inl b
    end
  end.

(** ** Examples of surroundings *)

(** Values of the imported constants, and [time.Parse] on canonical UTC
    timestamps, for the concrete examples. *)
Definition exampleImports : Imports :=
  {| OperatingSystemCoreos := "coreos";
     OperatingSystemCentOS := "centos";
     OperatingSystemUbuntu := "ubuntu";
     time_Parse := λ _ value, canonicalUTC value |}.

(** The process right after start: lock free, cache empty, nothing done. *)
Definition world0 : World :=
  {| locked := false; cache := cache0; trace := [] |}.

Definition exampleClient : EC2 := {| Region := "eu-west-1" |}.

Definition exampleVpc : Vpc := {| VpcId := "vpc-0a"; CidrBlock := "10.0.0.0/16" |}.

Definition otherVpc : Vpc := {| VpcId := "vpc-0a"; CidrBlock := "10.1.0.0/16" |}.

Definition exampleImages : list Image :=
  [ {| ImageId := "ami-2020"; CreationDate := "2020-01-01T00:00:00Z" |};
    {| ImageId := "ami-2021"; CreationDate := "2021-06-15T00:00:00Z" |};
    {| ImageId := "ami-garbage"; CreationDate := "garbage" |} ].

(** A clock that advances one nanosecond per effect for a while. *)
Definition exampleClock (n : nat) : Z := Z.of_nat (Nat.min n 1000).

(** EC2 answering every query with the given networks and images. *)
Definition answeringEnv (vpcs : list Vpc) (images : list Image) : Env :=
  {| clock := exampleClock;
     describeVpcs := λ _ _ _, inl {| Vpcs := vpcs |};
     describeImages := λ _ _ _, inl {| Images := images |} |}.

(** EC2 failing every query with the given error. *)
Definition failingEnv (err : error) : Env :=
  {| clock := exampleClock;
     describeVpcs := λ _ _ _, inr err;
     describeImages := λ _ _ _, inr err |}.

(** A process whose cache holds one network, with the given expiration. *)
Definition worldWithVpc (expiration : Z) : World :=
  {| locked := false;
     cache := {| defaultExpiration := 5 * Minute;
                 items := {[ vpcCacheKey "eu-west-1" "vpc-0a" :=
                               {| Object := VVpc exampleVpc; Expiration := expiration |} ]} |};
     trace := [] |}.

(** * Properties *)

(** ** The store *)

Section Store.
Implicit Types (c : Cache) (k : string) (x : value).

Lemma Get_SetDefault_eq c k x T t :
  Get t (SetDefault T c k x) k
  = if t <? T + defaultExpiration c then Some x else None.
Proof. unfold Get, SetDefault; simpl. by rewrite lookup_insert_eq. Qed.

Lemma Get_SetDefault_ne c k k' x T t :
  k' ≠ k → Get t (SetDefault T c k' x) k = Get t c k.
Proof. intros Hne. unfold Get, SetDefault; simpl. by rewrite lookup_insert_ne. Qed.

Lemma Get_DeleteExpired c k s t :
  s <= t → Get t (DeleteExpired s c) k = Get t c k.
Proof.
  intros Hst. unfold Get, DeleteExpired; simpl.
  destruct (items c !! k) as [it|] eqn:Hk.
  - destruct (decide (s < Expiration it)) as [Hlt|Hge].
    + erewrite (proj2 (map_lookup_filter_Some _ _ _ _)); [done|]. by split.
    + rewrite (proj2 (map_lookup_filter_None _ _ _)).
      * destruct (Z.ltb_spec t (Expiration it)); [lia|done].
      * right. intros it' Hit'. rewrite Hk in Hit'. injection Hit' as <-. done.
  - rewrite (proj2 (map_lookup_filter_None _ _ _)); [done|]. by left.
Qed.

Lemma Get_applyOp c k t o :
  spares k t o → Get t (applyOp c o) k = Get t c k.
Proof.
  destruct o as [s|s k' x]; simpl; intros Hsp.
  - by apply Get_DeleteExpired.
  - by apply Get_SetDefault_ne.
Qed.

Lemma Get_applyOps ops : ∀ c k t,
  Forall (spares k t) ops → Get t (applyOps ops c) k = Get t c k.
Proof.
  induction ops as [|o ops IH]; intros c k t Hall; [done|].
  inversion Hall as [|? ? Ho Hops]; subst. simpl.
  unfold applyOps in IH. rewrite IH by done. by apply Get_applyOp.
Qed.

Lemma misses_later c k t t' :
  misses t c k → t <= t' → misses t' c k.
Proof.
  unfold misses, Get. destruct (items c !! k) as [it|]; [|done].
  destruct (Z.ltb_spec t (Expiration it)); [done|].
  destruct (Z.ltb_spec t' (Expiration it)); [lia|done].
Qed.

End Store.

(** C8. A value set at time [T] in a store whose TTL is [D] is a hit for a
    read at any time before [T + D] and a miss for a read at any time at or
    after [T + D], whatever sweeps of expired entries (and writes of other
    keys) happened in between; reading changes nothing in the store; the
    TTL of the package's store is five minutes. *)
Theorem expiration_checked_at_read_time
    (c : Cache) (k : string) (x : value) (T t : Z) (ops : list StoreOp) :
  Forall (spares k t) ops →
  let c' := applyOps ops (SetDefault T c k x) in
  (t < T + defaultExpiration c → Get t c' k = Some x)
  ∧ (T + defaultExpiration c <= t → Get t c' k = None)
  ∧ (∀ env w key, cache (exec env (CacheGet key Ret) w).2 = cache w)
  ∧ defaultExpiration cache0 = 5 * Minute.
Proof.
  intros Hops c'. subst c'.
  rewrite Get_applyOps by done. rewrite Get_SetDefault_eq.
  repeat split.
  - intros Hlt. destruct (Z.ltb_spec t (T + defaultExpiration c)); [done|lia].
  - intros Hge. destruct (Z.ltb_spec t (T + defaultExpiration c)); [lia|done].
Qed.

Lemma expiration_checked_at_read_time_witness :
  Forall (spares "vpc-eu-west-1-vpc-1" 299999999999)
    [OpSweep 100; OpSet 200 "ami-id-eu-west-1-ubuntu" (VString "ami-1")]
  ∧ Get 299999999999
      (applyOps [OpSweep 100; OpSet 200 "ami-id-eu-west-1-ubuntu" (VString "ami-1")]
         (SetDefault 0 cache0 "vpc-eu-west-1-vpc-1" (VString "v")))
      "vpc-eu-west-1-vpc-1" = Some (VString "v").
Proof.
  assert (Hops : Forall (spares "vpc-eu-west-1-vpc-1" 299999999999)
    [OpSweep 100; OpSet 200 "ami-id-eu-west-1-ubuntu" (VString "ami-1")]).
  { repeat constructor; simpl; [lia|discriminate]. }
  split; [exact Hops|].
  apply (expiration_checked_at_read_time cache0 "vpc-eu-west-1-vpc-1" (VString "v")
           0 299999999999 _ Hops).
  reflexivity.
Defined.

(** ** Cache keys *)

Section Keys.

Lemma append_nil_l (b : string) : "" +:+ b = b.
Proof. reflexivity. Qed.

Lemma append_cons (x : ascii) (a b : string) :
  String x a +:+ b = String x (a +:+ b).
Proof. reflexivity. Qed.

Lemma append_nil_r (a : string) : a +:+ "" = a.
Proof.
  induction a as [|x a IH]; [done|]. by rewrite append_cons, IH.
Qed.

Lemma append_assoc (a b c : string) : (a +:+ b) +:+ c = a +:+ (b +:+ c).
Proof.
  induction a as [|x a IH]; [done|]. by rewrite !append_cons, IH.
Qed.

Lemma length_append (a b : string) :
  String.length (a +:+ b) = (String.length a + String.length b)%nat.
Proof.
  induction a as [|x a IH]; [done|]. rewrite append_cons. simpl. by rewrite IH.
Qed.

Lemma append_eq_append (a : string) : ∀ b c d : string,
  a +:+ b = c +:+ d →
  ∃ s, (a = c +:+ s ∧ d = s +:+ b) ∨ (c = a +:+ s ∧ b = s +:+ d).
Proof.
  induction a as [|x a IH]; intros b c d Heq.
  - exists c. right. by rewrite append_nil_l in *.
  - destruct c as [|y c].
    + exists (String x a). left. by rewrite append_nil_l in *.
    + rewrite !append_cons in Heq. injection Heq as -> Heq.
      destruct (IH _ _ _ Heq) as [s [[-> ->]|[-> ->]]]; exists s; [left|right];
        by rewrite append_cons.
Qed.

(** Two ways of cutting one string at a hyphen. *)
Lemma hyphen_split (r1 p1 r2 p2 : string) :
  r1 +:+ "-" +:+ p1 = r2 +:+ "-" +:+ p2 →
  (r1 = r2 ∧ p1 = p2)
  ∨ (∃ s, r2 = r1 +:+ "-" +:+ s ∧ p1 = s +:+ "-" +:+ p2)
  ∨ (∃ s, r1 = r2 +:+ "-" +:+ s ∧ p2 = s +:+ "-" +:+ p1).
Proof.
  intros Heq. destruct (append_eq_append _ _ _ _ Heq) as [s [[-> Hs]|[-> Hs]]].
  - destruct s as [|x s]; rewrite ?append_cons, ?append_nil_l in Hs.
    + left. rewrite append_nil_r. by injection Hs as ->.
    + injection Hs as <- ->. right; right. by exists s.
  - destruct s as [|x s]; rewrite ?append_cons, ?append_nil_l in Hs.
    + left. rewrite append_nil_r. by injection Hs as ->.
    + injection Hs as <- ->. right; left. by exists s.
Qed.

Lemma vpcCacheKey_split (r1 p1 r2 p2 : string) :
  vpcCacheKey r1 p1 = vpcCacheKey r2 p2 →
  r1 +:+ "-" +:+ p1 = r2 +:+ "-" +:+ p2.
Proof. unfold vpcCacheKey. apply String.app_inj. Qed.

Lemma amiCacheKey_split (r1 p1 r2 p2 : string) :
  amiCacheKey r1 p1 = amiCacheKey r2 p2 →
  r1 +:+ "-" +:+ p1 = r2 +:+ "-" +:+ p2.
Proof. unfold amiCacheKey. apply String.app_inj. Qed.

(** The keys of the two lookups differ in their first character. *)
Lemma vpc_ami_keys_differ (r1 p1 r2 p2 : string) :
  vpcCacheKey r1 p1 ≠ amiCacheKey r2 p2.
Proof. unfold vpcCacheKey, amiCacheKey. rewrite !append_cons. discriminate. Qed.

End Keys.

(** C7, as the code has it.  Identical lookups get the same key.  Two
    lookups get the same key exactly when they belong to the same operation
    and either have the same region and parameter, or the region of one
    followed by a hyphen starts the region of the other and the parameter
    of the former starts with what is left of that region and a hyphen.
    So two different lookups that agree on the region, or on the parameter,
    never get the same key. *)
Theorem cacheKey_collisions (a b : Lookup) :
  (a = b → cacheKey a = cacheKey b)
  ∧ (cacheKey a = cacheKey b ↔
     sameOperation a b = true
     ∧ ((lookupRegion a = lookupRegion b ∧ lookupParam a = lookupParam b)
        ∨ (∃ s, lookupRegion b = lookupRegion a +:+ "-" +:+ s
                ∧ lookupParam a = s +:+ "-" +:+ lookupParam b)
        ∨ (∃ s, lookupRegion a = lookupRegion b +:+ "-" +:+ s
                ∧ lookupParam b = s +:+ "-" +:+ lookupParam a)))
  ∧ (cacheKey a = cacheKey b → lookupRegion a = lookupRegion b → a = b)
  ∧ (cacheKey a = cacheKey b → lookupParam a = lookupParam b → a = b).
Proof.
  assert (Hcut : cacheKey a = cacheKey b →
                 sameOperation a b = true
                 ∧ lookupRegion a +:+ "-" +:+ lookupParam a
                   = lookupRegion b +:+ "-" +:+ lookupParam b).
  { intros Hkey. destruct a, b; simpl in *; split;
      first [done | by apply vpcCacheKey_split | by apply amiCacheKey_split
            |by apply vpc_ami_keys_differ in Hkey
            |symmetry in Hkey; by apply vpc_ami_keys_differ in Hkey]. }
  split; [by intros ->|]. split; [split|split].
  - intros Hkey. destruct (Hcut Hkey) as [Hop Heq]. split; [done|].
    by apply hyphen_split.
  - intros [Hop Hsplit].
    assert (Heq : lookupRegion a +:+ "-" +:+ lookupParam a
                  = lookupRegion b +:+ "-" +:+ lookupParam b).
    { destruct Hsplit as [[-> ->]|[(s & -> & ->)|(s & -> & ->)]]; [done|..];
        by rewrite !append_assoc. }
    destruct a, b; simpl in *; try done;
      unfold vpcCacheKey, amiCacheKey; by rewrite Heq.
  - intros Hkey Hr. destruct (Hcut Hkey) as [Hop Heq].
    rewrite Hr in Heq. apply String.app_inj in Heq.
    rewrite !append_cons, !append_nil_l in Heq. injection Heq as Hp.
    destruct a, b; simpl in *; try done; congruence.
  - intros Hkey Hp. destruct (Hcut Hkey) as [Hop Heq]. rewrite Hp in Heq.
    destruct (hyphen_split _ _ _ _ Heq) as [[Hr _]|[[s [_ Hs]]|[s [_ Hs]]]].
    + destruct a, b; simpl in *; try done; congruence.
    + exfalso. apply (f_equal String.length) in Hs.
      rewrite !length_append in Hs. simpl in Hs. lia.
    + exfalso. apply (f_equal String.length) in Hs.
      rewrite !length_append in Hs. simpl in Hs. lia.
Qed.

Lemma cacheKey_collisions_witness :
  cacheKey (LookupVpc "eu-west-1" "vpc-0a") = cacheKey (LookupVpc "eu-west-1" "vpc-0a")
  ∧ sameOperation (LookupVpc "eu-west-1" "vpc-0a") (LookupVpc "eu-west-1" "vpc-0a") = true.
Proof.
  split; [reflexivity|].
  apply (proj1 (proj1 (proj2 (cacheKey_collisions
                  (LookupVpc "eu-west-1" "vpc-0a") (LookupVpc "eu-west-1" "vpc-0a"))))
           eq_refl).
Defined.

(** C7, as stated, fails: two lookups of the same operation that differ in
    region and in network id get one key when the hyphen falls differently. *)
Lemma cacheKey_not_injective :
  LookupVpc "us-east" "1-vpc-0a" ≠ LookupVpc "us-east-1" "vpc-0a"
  ∧ sameOperation (LookupVpc "us-east" "1-vpc-0a") (LookupVpc "us-east-1" "vpc-0a") = true
  ∧ cacheKey (LookupVpc "us-east" "1-vpc-0a") = cacheKey (LookupVpc "us-east-1" "vpc-0a").
Proof. split; [discriminate|split; reflexivity]. Qed.

(** ** Newest image *)

Section Newest.
Context `{Imports}.

Lemma After_irrefl (t : Time) : After t t = false.
Proof.
  unfold After. destruct (Z.ltb_spec (sec t) (sec t)); [lia|].
  destruct (Z.ltb_spec (nsec t) (nsec t)); [lia|]. by rewrite andb_false_r.
Qed.

Lemma not_After_trans (a b c : Time) :
  After a b = false → After b c = false → After a c = false.
Proof.
  unfold After. intros Hab Hbc.
  apply orb_false_iff in Hab as [Hab1 Hab2], Hbc as [Hbc1 Hbc2].
  apply Z.ltb_ge in Hab1, Hbc1.
  apply orb_false_iff. split; [apply Z.ltb_ge; lia|].
  apply andb_false_iff in Hab2 as [Hab2|Hab2], Hbc2 as [Hbc2|Hbc2];
    apply andb_false_iff;
    rewrite ?Z.eqb_neq, ?Z.ltb_ge in *;
    destruct (decide (sec a = sec c)); [right|left|right|left|right|left|right|left];
    try done; lia.
Qed.

Lemma After_not_After (a b c : Time) :
  After a b = true → After c b = false → After c a = false.
Proof.
  unfold After. intros Hab Hcb.
  apply orb_false_iff in Hcb as [Hcb1 Hcb2]. apply Z.ltb_ge in Hcb1.
  apply orb_true_iff in Hab as [Hab|Hab].
  - apply Z.ltb_lt in Hab. apply orb_false_iff. split; [apply Z.ltb_ge; lia|].
    apply andb_false_iff. left. apply Z.eqb_neq. lia.
  - apply andb_true_iff in Hab as [Hab1 Hab2].
    apply Z.eqb_eq in Hab1. apply Z.ltb_lt in Hab2.
    apply orb_false_iff. split; [apply Z.ltb_ge; lia|].
    apply andb_false_iff in Hcb2 as [Hcb2|Hcb2]; apply andb_false_iff.
    + left. apply Z.eqb_neq. apply Z.eqb_neq in Hcb2. lia.
    + right. apply Z.ltb_ge. apply Z.ltb_ge in Hcb2. lia.
Qed.

Lemma parsedOrZero_unparsable (s : string) :
  parses s = false → parsedOrZero s = zeroTime.
Proof. unfold parses, parsedOrZero. by destruct (time_Parse RFC3339 s). Qed.

Lemma newer_cases (image v : Image) :
  newer image v = image ∨ newer image v = v.
Proof. unfold newer. destruct (After _ _); auto. Qed.

Lemma newer_not_before (image v : Image) :
  After (parsedOrZero (CreationDate image)) (parsedOrZero (CreationDate (newer image v))) = false
  ∧ After (parsedOrZero (CreationDate v)) (parsedOrZero (CreationDate (newer image v))) = false.
Proof.
  unfold newer.
  destruct (After (parsedOrZero (CreationDate v)) (parsedOrZero (CreationDate image))) eqn:Hva.
  - split; [|apply After_irrefl].
    eapply After_not_After; [exact Hva|apply After_irrefl].
  - split; [apply After_irrefl|done].
Qed.

(** The loop ends on a candidate that no candidate is after. *)
Lemma newestImage_latest (images : list Image) : ∀ image0 : Image,
  let r := newestImage image0 images in
  (r = image0 ∨ In r images)
  ∧ After (parsedOrZero (CreationDate image0)) (parsedOrZero (CreationDate r)) = false
  ∧ Forall (λ v, After (parsedOrZero (CreationDate v)) (parsedOrZero (CreationDate r)) = false)
      images.
Proof.
  induction images as [|v images IH]; intros image0; simpl.
  - split; [by left|]. split; [apply After_irrefl|constructor].
  - destruct (IH (newer image0 v)) as (Hin & Hfirst & Hall).
    destruct (newer_not_before image0 v) as [Hi Hv].
    fold (newestImage (newer image0 v) images) in *.
    repeat split.
    + destruct Hin as [->|Hin]; [|by right; right].
      destruct (newer_cases image0 v) as [->| ->]; [by left|by right; left].
    + by eapply not_After_trans.
    + constructor; [by eapply not_After_trans|done].
Qed.

(** Candidates that do not parse never replace the first one. *)
Lemma newestImage_unparsable (images : list Image) (image0 : Image) :
  parses (CreationDate image0) = false →
  Forall (λ v, parses (CreationDate v) = false) images →
  newestImage image0 images = image0.
Proof.
  intros H0. induction images as [|v images IH]; intros Hall; [done|].
  inversion Hall as [|? ? Hv Hrest]; subst. simpl.
  fold (newestImage (newer image0 v) images).
  assert (Hn : newer image0 v = image0).
  { unfold newer. rewrite !parsedOrZero_unparsable by done.
    by rewrite After_irrefl. }
  rewrite Hn. by apply IH.
Qed.

End Newest.

(** ** The two calls, effect by effect *)

Ltac run_effects :=
  repeat progress
    (cbn [exec defer_Unlock locked cache trace emit app length negb Nat.eqb];
     rewrite <- ?app_assoc, ?length_app).

Section Calls.
Context `{Imports}.

Lemma exec_Lock_held {R : Type} (env : Env) (k : prog R) (w : World) :
  locked w = true → exec env (Lock k) w = (Blocked, w).
Proof. intros Hheld. simpl. by rewrite Hheld. Qed.

(** [getVpc] from a world with the lock free. *)
Lemma getVpc_exec (env : Env) (w : World) (client : EC2) (id : string) :
  locked w = false →
  let key := vpcCacheKey (Region client) id in
  exec env (getVpc client id) w =
  match Get (getTime env w) (cache w) key with
  | Some (VVpc vpc) => (Returned (inl vpc), after w [EvLock; EvGet key; EvUnlock])
  | Some (VString _) => (Panicked, after w [EvLock; EvGet key; EvUnlock])
  | None =>
    let q := EvDescribeVpcs client (describeVpcsInput id) in
    match vpcsAnswer env w client id with
    | inr err =>
      (Returned (inr (awsErrorToTerminalError err "failed to list vpc's")),
       after w [EvLock; EvGet key; q; EvUnlock])
    | inl out =>
      match Vpcs out with
      | [vpc0] =>
        (Returned (inl vpc0),
         afterSet w (setTime env w) key (VVpc vpc0)
           [EvLock; EvGet key; q; EvSet key (VVpc vpc0); EvUnlock])
      | _ =>
        (Returned (inr (Errorf "unable to find specified vpc with id %q" [id])),
         after w [EvLock; EvGet key; q; EvUnlock])
      end
    end
  end.
Proof.
  intros Hfree key. destruct w as [l c t]. simpl in Hfree. subst l key.
  unfold getVpc, getVpcBody, getTime, setTime, vpcsAnswer, after, afterSet.
  run_effects.
  destruct (Get _ c _) as [[vpc|s]|]; run_effects; try reflexivity.
  destruct (describeVpcs _ _ _ _) as [out|err]; run_effects; [|reflexivity].
  destruct (Vpcs out) as [|vpc0 [|vpc1 rest]]; run_effects; reflexivity.
Qed.

(** [getDefaultAMIID] from a world with the lock free. *)
Lemma getDefaultAMIID_exec (env : Env) (w : World) (client : EC2) (os : OperatingSystem) :
  locked w = false →
  let key := amiCacheKey (Region client) os in
  exec env (getDefaultAMIID client os) w =
  match amiFilters !! os with
  | None =>
    (Returned (inr (Errorf "operating system %q not supported" [os])),
     after w [EvLock; EvUnlock])
  | Some filter =>
    match Get (getTime env w) (cache w) key with
    | Some (VString amiID) => (Returned (inl amiID), after w [EvLock; EvGet key; EvUnlock])
    | Some (VVpc _) => (Panicked, after w [EvLock; EvGet key; EvUnlock])
    | None =>
      let q := EvDescribeImages client (describeImagesInput filter) in
      match imagesAnswer env w client filter with
      | inr err => (Returned (inr err), after w [EvLock; EvGet key; q; EvUnlock])
      | inl out =>
        match Images out with
        | [] =>
          (Returned (inr (Errorf "could not find Image for '%s'" [os])),
           after w [EvLock; EvGet key; q; EvUnlock])
        | image0 :: _ =>
          let amiID := ImageId (newestImage image0 (Images out)) in
          (Returned (inl amiID),
           afterSet w (setTime env w) key (VString amiID)
             [EvLock; EvGet key; q; EvSet key (VString amiID); EvUnlock])
        end
      end
    end
  end.
Proof.
  intros Hfree key. destruct w as [l c t]. simpl in Hfree. subst l key.
  unfold getDefaultAMIID, getDefaultAMIIDBody, getTime, setTime, imagesAnswer,
    after, afterSet.
  destruct (amiFilters !! os) as [filter|]; run_effects; [|reflexivity].
  destruct (Get _ c _) as [[vpc|s]|]; run_effects; try reflexivity.
  destruct (describeImages _ _ _ _) as [out|err]; run_effects; [|reflexivity].
  destruct (Images out) as [|image0 rest] eqn:Himages; run_effects; reflexivity.
Qed.

Lemma queries_app (t u : list Event) :
  queries (t ++ u) = (queries t + queries u)%nat.
Proof. unfold queries. by rewrite List.filter_app, length_app. Qed.

(** The next call reads the clock no earlier than this one did. *)
Lemma misses_next_call (env : Env) (w : World) (evs : list Event) (k : string) :
  monotone env →
  misses (getTime env w) (cache w) k →
  misses (getTime env (after w evs)) (cache (after w evs)) k.
Proof.
  intros Hmono Hmiss. unfold getTime in *. simpl.
  eapply misses_later; [exact Hmiss|].
  apply Hmono. rewrite length_app. lia.
Qed.

End Calls.

(** ** Unsupported operating systems *)

(** C2, as the code has it.  For an operating system with no entry in
    [amiFilters], [getDefaultAMIID] first takes [cacheLock] (and waits while
    it is held); once it has the lock it returns the error "operating
    system not supported" without reading or writing the cache and without
    calling [DescribeImages], and gives the lock back. *)
Theorem unsupported_os_fails_under_the_lock `{Imports}
    (env : Env) (w : World) (client : EC2) (os : OperatingSystem) :
  amiFilters !! os = None →
  exec env (getDefaultAMIID client os) w =
  if locked w then (Blocked, w)
  else (Returned (inr (Errorf "operating system %q not supported" [os])),
        after w [EvLock; EvUnlock]).
Proof.
  intros Hos. destruct (locked w) eqn:Hlock.
  - by apply exec_Lock_held.
  - rewrite getDefaultAMIID_exec by done. by rewrite Hos.
Qed.

Lemma unsupported_os_fails_under_the_lock_witness :
  @amiFilters exampleImports !! "plan9" = None
  ∧ exec (answeringEnv [] exampleImages)
      (@getDefaultAMIID exampleImports exampleClient "plan9") world0
    = (Returned (inr (Errorf "operating system %q not supported" ["plan9"])),
       after world0 [EvLock; EvUnlock]).
Proof.
  split; [reflexivity|].
  apply (@unsupported_os_fails_under_the_lock exampleImports
           (answeringEnv [] exampleImages) world0 exampleClient "plan9").
  reflexivity.
Defined.

(** C2, as stated, fails: the call for "plan9" touches the lock before it
    looks at the operating system: its first effect is [Lock], and while
    another goroutine holds the lock it does not return at all. *)
Lemma unsupported_os_touches_the_lock :
  (exec (answeringEnv [] exampleImages)
     (@getDefaultAMIID exampleImports exampleClient "plan9") world0).2.(trace)
  = [EvLock; EvUnlock]
  ∧ (exec (answeringEnv [] exampleImages)
       (@getDefaultAMIID exampleImports exampleClient "plan9")
       {| locked := true; cache := cache0; trace := [] |}).1
    = Blocked.
Proof. split; reflexivity. Qed.

(** ** Network lookups *)

(** C5. On a miss, a [DescribeVpcs] answer whose list of networks has any
    length other than one makes [getVpc] return the error "unable to find
    specified vpc" with nothing written to the cache; and a miss on which
    [getVpc] succeeds had an answer of exactly one network. *)
Theorem getVpc_needs_exactly_one_network
    (env : Env) (w : World) (client : EC2) (id : string) :
  locked w = false →
  misses (getTime env w) (cache w) (vpcCacheKey (Region client) id) →
  (∀ out, vpcsAnswer env w client id = inl out →
          length (Vpcs out) ≠ 1%nat →
          exec env (getVpc client id) w
          = (Returned (inr (Errorf "unable to find specified vpc with id %q" [id])),
             after w [EvLock; EvGet (vpcCacheKey (Region client) id);
                      EvDescribeVpcs client (describeVpcsInput id); EvUnlock]))
  ∧ (∀ vpc w', exec env (getVpc client id) w = (Returned (inl vpc), w') →
               ∃ out, vpcsAnswer env w client id = inl out ∧ Vpcs out = [vpc]).
Proof.
  intros Hfree Hmiss. unfold misses in Hmiss.
  rewrite getVpc_exec by done. rewrite Hmiss. simpl. split.
  - intros out -> Hlen.
    destruct (Vpcs out) as [|vpc0 [|vpc1 rest]]; simpl in Hlen; done.
  - intros vpc w'. destruct (vpcsAnswer env w client id) as [out|err]; [|done].
    destruct (Vpcs out) as [|vpc0 [|vpc1 rest]] eqn:Hv; intros [= <- <-]; [].
    by exists out.
Qed.

Lemma getVpc_needs_exactly_one_network_witness :
  locked world0 = false
  ∧ misses (getTime (answeringEnv [exampleVpc; otherVpc] []) world0) (cache world0)
      (vpcCacheKey (Region exampleClient) "vpc-0a")
  ∧ exec (answeringEnv [exampleVpc; otherVpc] []) (getVpc exampleClient "vpc-0a") world0
    = (Returned (inr (Errorf "unable to find specified vpc with id %q" ["vpc-0a"])),
       after world0 [EvLock; EvGet (vpcCacheKey (Region exampleClient) "vpc-0a");
                     EvDescribeVpcs exampleClient (describeVpcsInput "vpc-0a"); EvUnlock]).
Proof.
  split; [reflexivity|]. split; [reflexivity|].
  apply (proj1 (getVpc_needs_exactly_one_network
                  (answeringEnv [exampleVpc; otherVpc] []) world0 exampleClient "vpc-0a"
                  eq_refl eq_refl) {| Vpcs := [exampleVpc; otherVpc] |}).
  - reflexivity.
  - simpl. lia.
Defined.

(** ** Errors of the query itself *)

Section Upstream.
Context `{Imports}.

(** [getVpc] hands an error of [DescribeVpcs] to [awsErrorToTerminalError]
    with the message "failed to list vpc's". *)
Lemma getVpc_upstream_error (env : Env) (w : World) (client : EC2) (id : string)
    (err : error) :
  locked w = false →
  misses (getTime env w) (cache w) (vpcCacheKey (Region client) id) →
  vpcsAnswer env w client id = inr err →
  (exec env (getVpc client id) w).1
  = Returned (inr (awsErrorToTerminalError err "failed to list vpc's")).
Proof.
  intros Hfree Hmiss Herr. rewrite getVpc_exec by done.
  unfold misses in Hmiss. by rewrite Hmiss, Herr.
Qed.

(** [getDefaultAMIID] returns an error of [DescribeImages] as it is. *)
Lemma getDefaultAMIID_upstream_error (env : Env) (w : World) (client : EC2)
    (os : OperatingSystem) (filter : amiFilter) (err : error) :
  amiFilters !! os = Some filter →
  locked w = false →
  misses (getTime env w) (cache w) (amiCacheKey (Region client) os) →
  imagesAnswer env w client filter = inr err →
  (exec env (getDefaultAMIID client os) w).1 = Returned (inr err).
Proof.
  intros Hos Hfree Hmiss Herr. rewrite getDefaultAMIID_exec by done.
  unfold misses in Hmiss. by rewrite Hos, Hmiss, Herr.
Qed.

End Upstream.

(** C6 at a failing query.  With EC2 answering "RequestLimitExceeded" to
    both queries on an empty cache, [getVpc] returns the error with the
    context "failed to list vpc's", and [getDefaultAMIID] returns the bare
    error of the SDK, with no context. *)
Theorem upstream_error_context_only_for_vpcs :
  (exec (failingEnv (SdkError "RequestLimitExceeded"))
     (getVpc exampleClient "vpc-0a") world0).1
  = Returned (inr (WithContext "failed to list vpc's" (SdkError "RequestLimitExceeded")))
  ∧ (exec (failingEnv (SdkError "RequestLimitExceeded"))
       (@getDefaultAMIID exampleImports exampleClient "ubuntu") world0).1
    = Returned (inr (SdkError "RequestLimitExceeded"))
  ∧ has_context (SdkError "RequestLimitExceeded") = false.
Proof. repeat split. Qed.

(** ** Image lookups *)

(** C9. When no candidate of a non-empty [DescribeImages] answer has a
    timestamp that parses, [getDefaultAMIID] succeeds with the image id of
    the first candidate, and caches it. *)
Theorem unparsable_candidates_keep_the_first `{Imports}
    (env : Env) (w : World) (client : EC2) (os : OperatingSystem)
    (filter : amiFilter) (image0 : Image) (rest : list Image) :
  amiFilters !! os = Some filter →
  locked w = false →
  misses (getTime env w) (cache w) (amiCacheKey (Region client) os) →
  imagesAnswer env w client filter = inl {| Images := image0 :: rest |} →
  Forall (λ v, parses (CreationDate v) = false) (image0 :: rest) →
  exec env (getDefaultAMIID client os) w
  = (Returned (inl (ImageId image0)),
     afterSet w (setTime env w) (amiCacheKey (Region client) os)
       (VString (ImageId image0))
       [EvLock; EvGet (amiCacheKey (Region client) os);
        EvDescribeImages client (describeImagesInput filter);
        EvSet (amiCacheKey (Region client) os) (VString (ImageId image0));
        EvUnlock]).
Proof.
  intros Hos Hfree Hmiss Hanswer Hnone. unfold misses in Hmiss.
  rewrite getDefaultAMIID_exec by done. rewrite Hos, Hmiss, Hanswer.
  cbn -[newestImage].
  pose proof (Forall_inv Hnone) as H0. simpl in H0.
  by rewrite (newestImage_unparsable (image0 :: rest) image0 H0 Hnone).
Qed.

Lemma unparsable_candidates_keep_the_first_witness :
  let images := [ {| ImageId := "ami-a"; CreationDate := "yesterday" |};
                  {| ImageId := "ami-b"; CreationDate := "garbage" |} ] in
  (exec (answeringEnv [] images)
     (@getDefaultAMIID exampleImports exampleClient "ubuntu") world0).1
  = Returned (inl "ami-a").
Proof.
  intros images.
  rewrite (@unparsable_candidates_keep_the_first exampleImports
             (answeringEnv [] images) world0 exampleClient "ubuntu"
             {| description := "Canonical, Ubuntu, 18.04 LTS, amd64 bionic image build on ????-??-??";
                owner := "099720109477" |}
             {| ImageId := "ami-a"; CreationDate := "yesterday" |}
             [ {| ImageId := "ami-b"; CreationDate := "garbage" |} ]).
  - reflexivity.
  - reflexivity.
  - reflexivity.
  - reflexivity.
  - reflexivity.
  - repeat constructor.
Defined.

(** C3, as the code has it.  A timestamp that fails to parse is read as
    Go's zero time (January 1 of year 1, UTC) and never makes the call
    fail.  When at least one candidate parses and every timestamp that
    parses is after the zero time, [getDefaultAMIID] returns the image id of
    a candidate whose timestamp parses and that no parseable candidate is
    after; and a candidate that does not parse does not replace a current
    best whose time is not before the zero time. *)
Theorem newest_parseable_image_wins `{Imports}
    (env : Env) (w : World) (client : EC2) (os : OperatingSystem)
    (filter : amiFilter) (out : DescribeImagesOutput) :
  amiFilters !! os = Some filter →
  locked w = false →
  misses (getTime env w) (cache w) (amiCacheKey (Region client) os) →
  imagesAnswer env w client filter = inl out →
  Exists (λ v, parses (CreationDate v) = true) (Images out) →
  Forall (λ v, parses (CreationDate v) = true →
               After (parsedOrZero (CreationDate v)) zeroTime = true) (Images out) →
  (∃ best,
      In best (Images out)
      ∧ (exec env (getDefaultAMIID client os) w).1 = Returned (inl (ImageId best))
      ∧ parses (CreationDate best) = true
      ∧ Forall (λ v, parses (CreationDate v) = true →
                     After (parsedOrZero (CreationDate v))
                           (parsedOrZero (CreationDate best)) = false) (Images out))
  ∧ (∀ image v, parses (CreationDate v) = false →
                After zeroTime (parsedOrZero (CreationDate image)) = false →
                newer image v = image).
Proof.
  intros Hos Hfree Hmiss Hanswer Hsome Hpos. unfold misses in Hmiss. split.
  - rewrite getDefaultAMIID_exec by done. rewrite Hos, Hmiss, Hanswer. simpl.
    destruct (Images out) as [|image0 rest] eqn:Himages.
    { by apply Exists_nil in Hsome. }
    simpl. fold (newestImage image0 (image0 :: rest)).
    destruct (newestImage_latest (image0 :: rest) image0) as (Hin & _ & Hall).
    set (best := newestImage image0 (image0 :: rest)) in *.
    assert (Hbest_in : In best (image0 :: rest)).
    { destruct Hin as [->|Hin]; [by left|done]. }
    assert (Hbest : parses (CreationDate best) = true).
    { apply List.Exists_exists in Hsome as (v & Hv & Hvp).
      rewrite List.Forall_forall in Hall, Hpos.
      pose proof (Hall v Hv) as Hle. pose proof (Hpos v Hv Hvp) as Hgt.
      destruct (parses (CreationDate best)) eqn:Hb; [done|].
      rewrite (parsedOrZero_unparsable _ Hb) in Hle. congruence. }
    exists best. repeat split; try done.
    eapply Forall_impl; [exact Hall|]. simpl. auto.
  - intros image v Hv Himage. unfold newer.
    rewrite (parsedOrZero_unparsable _ Hv). by rewrite Himage.
Qed.

Lemma newest_parseable_image_wins_witness :
  Exists (λ v, @parses exampleImports (CreationDate v) = true) exampleImages
  ∧ ∃ best,
      In best exampleImages
      ∧ (exec (answeringEnv [] exampleImages)
           (@getDefaultAMIID exampleImports exampleClient "ubuntu") world0).1
        = Returned (inl (ImageId best))
      ∧ @parses exampleImports (CreationDate best) = true
      ∧ Forall (λ v, @parses exampleImports (CreationDate v) = true →
                     After (@parsedOrZero exampleImports (CreationDate v))
                           (@parsedOrZero exampleImports (CreationDate best)) = false)
          exampleImages.
Proof.
  assert (Hsome : Exists (λ v, @parses exampleImports (CreationDate v) = true) exampleImages).
  { apply Exists_cons_hd. reflexivity. }
  split; [exact Hsome|].
  apply (@newest_parseable_image_wins exampleImports
           (answeringEnv [] exampleImages) world0 exampleClient "ubuntu"
           {| description := "Canonical, Ubuntu, 18.04 LTS, amd64 bionic image build on ????-??-??";
              owner := "099720109477" |}
           {| Images := exampleImages |}).
  - reflexivity.
  - reflexivity.
  - reflexivity.
  - reflexivity.
  - exact Hsome.
  - repeat constructor; intros Hp; solve [reflexivity | discriminate Hp].
Defined.

(** The example of C3: of the candidates timestamped 2020-01-01T00:00:00Z,
    2021-06-15T00:00:00Z and "garbage", the second is returned. *)
Example newest_of_the_three_examples :
  (exec (answeringEnv [] exampleImages)
     (@getDefaultAMIID exampleImports exampleClient "ubuntu") world0).1
  = Returned (inl "ami-2021").
Proof. reflexivity. Qed.

(** C3, as stated, fails: after a candidate whose timestamp parses to a
    time before the zero time (here in year 0), a candidate whose timestamp
    does not parse is read as the zero time, counts as newer, and is
    returned although another candidate parses. *)
Lemma unparsable_candidate_can_win :
  @parses exampleImports "0000-06-01T00:00:00Z" = true
  ∧ @parses exampleImports "garbage" = false
  ∧ (exec (answeringEnv []
             [ {| ImageId := "ami-year0"; CreationDate := "0000-06-01T00:00:00Z" |};
               {| ImageId := "ami-garbage"; CreationDate := "garbage" |} ])
       (@getDefaultAMIID exampleImports exampleClient "ubuntu") world0).1
    = Returned (inl "ami-garbage").
Proof. repeat split. Qed.

(** ** What a successful miss caches *)

(** C10. On a miss that succeeds, the value written under the computed key
    is the value returned, and it comes from the answer of the query:
    [getVpc] caches and returns a network of the [DescribeVpcs] answer,
    [getDefaultAMIID] caches and returns the image id of a candidate of the
    [DescribeImages] answer. *)
Theorem successful_miss_caches_what_it_returns `{Imports} (env : Env) (w : World) :
  locked w = false →
  (∀ client id vpc w',
      misses (getTime env w) (cache w) (vpcCacheKey (Region client) id) →
      exec env (getVpc client id) w = (Returned (inl vpc), w') →
      (∃ out, vpcsAnswer env w client id = inl out ∧ In vpc (Vpcs out))
      ∧ w' = afterSet w (setTime env w) (vpcCacheKey (Region client) id) (VVpc vpc)
               [EvLock; EvGet (vpcCacheKey (Region client) id);
                EvDescribeVpcs client (describeVpcsInput id);
                EvSet (vpcCacheKey (Region client) id) (VVpc vpc); EvUnlock]
      ∧ items (cache w') !! vpcCacheKey (Region client) id
        = Some {| Object := VVpc vpc;
                  Expiration := setTime env w + defaultExpiration (cache w) |})
  ∧ (∀ client os amiID w',
      misses (getTime env w) (cache w) (amiCacheKey (Region client) os) →
      exec env (getDefaultAMIID client os) w = (Returned (inl amiID), w') →
      (∃ filter out image,
          amiFilters !! os = Some filter
          ∧ imagesAnswer env w client filter = inl out
          ∧ In image (Images out) ∧ ImageId image = amiID
          ∧ w' = afterSet w (setTime env w) (amiCacheKey (Region client) os)
                   (VString amiID)
                   [EvLock; EvGet (amiCacheKey (Region client) os);
                    EvDescribeImages client (describeImagesInput filter);
                    EvSet (amiCacheKey (Region client) os) (VString amiID); EvUnlock])
      ∧ items (cache w') !! amiCacheKey (Region client) os
        = Some {| Object := VString amiID;
                  Expiration := setTime env w + defaultExpiration (cache w) |}).
Proof.
  intros Hfree. split.
  - intros client id vpc w' Hmiss. unfold misses in Hmiss.
    rewrite getVpc_exec by done. rewrite Hmiss. cbn zeta.
    destruct (vpcsAnswer env w client id) as [out|err]; [|done].
    destruct (Vpcs out) as [|vpc0 [|vpc1 rest]] eqn:Hv; intros [= <- <-]; [].
    split; [exists out; split; [done|rewrite Hv; by left]|].
    split; [done|]. simpl. by rewrite lookup_insert_eq.
  - intros client os amiID w' Hmiss. unfold misses in Hmiss.
    rewrite getDefaultAMIID_exec by done.
    destruct (amiFilters !! os) as [filter|]; [|done].
    rewrite Hmiss. cbn zeta.
    destruct (imagesAnswer env w client filter) as [out|err] eqn:Hanswer; [|done].
    destruct (Images out) as [|image0 rest] eqn:Hi; [done|].
    intros [= <- <-].
    split; [|simpl; by rewrite lookup_insert_eq].
    exists filter, out, (newestImage image0 (image0 :: rest)).
    repeat split; try done.
    rewrite Hi.
    destruct (newestImage_latest (image0 :: rest) image0) as ([->|Hin] & _ & _);
      [by left|done].
Qed.

Lemma successful_miss_caches_what_it_returns_witness :
  locked world0 = false
  ∧ misses (getTime (answeringEnv [exampleVpc] exampleImages) world0) (cache world0)
      (vpcCacheKey (Region exampleClient) "vpc-0a")
  ∧ items (cache (exec (answeringEnv [exampleVpc] exampleImages)
                    (getVpc exampleClient "vpc-0a") world0).2)
      !! vpcCacheKey (Region exampleClient) "vpc-0a"
    = Some {| Object := VVpc exampleVpc;
              Expiration := setTime (answeringEnv [exampleVpc] exampleImages) world0
                            + defaultExpiration (cache world0) |}.
Proof.
  split; [reflexivity|]. split; [reflexivity|].
  apply (proj1 (@successful_miss_caches_what_it_returns exampleImports
                  (answeringEnv [exampleVpc] exampleImages) world0 eq_refl)
           exampleClient "vpc-0a" exampleVpc _ eq_refl).
  reflexivity.
Defined.

(** ** Failed lookups *)

Section Failures.
Context `{Imports}.

(** A call of [getVpc] that misses asks EC2 once. *)
Lemma getVpc_miss_queries (env : Env) (w : World) (client : EC2) (id : string) :
  locked w = false →
  misses (getTime env w) (cache w) (vpcCacheKey (Region client) id) →
  queries (trace (exec env (getVpc client id) w).2) = S (queries (trace w)).
Proof.
  intros Hfree Hmiss. unfold misses in Hmiss.
  rewrite getVpc_exec by done. rewrite Hmiss. cbn zeta.
  destruct (vpcsAnswer env w client id) as [out|err];
    [destruct (Vpcs out) as [|vpc0 [|vpc1 rest]]|];
    unfold after, afterSet; cbn [snd trace]; rewrite queries_app;
    cbn [queries List.filter isQuery length]; lia.
Qed.

(** A call of [getDefaultAMIID] for a supported system that misses asks EC2
    once. *)
Lemma getDefaultAMIID_miss_queries (env : Env) (w : World) (client : EC2)
    (os : OperatingSystem) :
  is_Some (amiFilters !! os) →
  locked w = false →
  misses (getTime env w) (cache w) (amiCacheKey (Region client) os) →
  queries (trace (exec env (getDefaultAMIID client os) w).2) = S (queries (trace w)).
Proof.
  intros [filter Hos] Hfree Hmiss. unfold misses in Hmiss.
  rewrite getDefaultAMIID_exec by done. rewrite Hos, Hmiss. cbn zeta.
  destruct (imagesAnswer env w client filter) as [out|err];
    [destruct (Images out) as [|image0 rest]|];
    unfold after, afterSet; cbn [snd trace]; rewrite queries_app;
    cbn [queries List.filter isQuery length]; lia.
Qed.

(** A call of [getVpc] that returns an error missed, and left the cache as
    it was. *)
Lemma getVpc_error_world (env : Env) (w w' : World) (client : EC2) (id : string)
    (e : error) :
  locked w = false →
  exec env (getVpc client id) w = (Returned (inr e), w') →
  misses (getTime env w) (cache w) (vpcCacheKey (Region client) id)
  ∧ w' = after w [EvLock; EvGet (vpcCacheKey (Region client) id);
                  EvDescribeVpcs client (describeVpcsInput id); EvUnlock].
Proof.
  intros Hfree. rewrite getVpc_exec by done. unfold misses.
  destruct (Get _ _ _) as [[vpc|s]|]; [done|done|]. cbn zeta.
  destruct (vpcsAnswer env w client id) as [out|err];
    [destruct (Vpcs out) as [|vpc0 [|vpc1 rest]]|]; by intros [= <- <-].
Qed.

Lemma getDefaultAMIID_error_world (env : Env) (w w' : World) (client : EC2)
    (os : OperatingSystem) (filter : amiFilter) (e : error) :
  amiFilters !! os = Some filter →
  locked w = false →
  exec env (getDefaultAMIID client os) w = (Returned (inr e), w') →
  misses (getTime env w) (cache w) (amiCacheKey (Region client) os)
  ∧ w' = after w [EvLock; EvGet (amiCacheKey (Region client) os);
                  EvDescribeImages client (describeImagesInput filter); EvUnlock].
Proof.
  intros Hos Hfree. rewrite getDefaultAMIID_exec by done. rewrite Hos. unfold misses.
  destruct (Get _ _ _) as [[vpc|s]|]; [done|done|]. cbn zeta.
  destruct (imagesAnswer env w client filter) as [out|err];
    [destruct (Images out) as [|image0 rest]|]; by intros [= <- <-].
Qed.

End Failures.

(** C4, as the code has it.  A call of [getVpc] or [getDefaultAMIID] that
    fails on a miss (the query fails, the networks are not exactly one,
    there is no image) leaves the cache as it was, the key still misses,
    and the call that follows asks EC2 again.  A call for an unsupported
    operating system leaves the cache as it was too, but it asks EC2
    nothing, and neither does the call that follows, which fails in the
    same way. *)
Theorem failed_lookup_caches_nothing `{Imports} (env : Env) (w : World) :
  monotone env →
  locked w = false →
  (∀ client id e w',
      exec env (getVpc client id) w = (Returned (inr e), w') →
      cache w' = cache w ∧ locked w' = false
      ∧ misses (getTime env w') (cache w') (vpcCacheKey (Region client) id)
      ∧ queries (trace w') = S (queries (trace w))
      ∧ queries (trace (exec env (getVpc client id) w').2) = S (queries (trace w')))
  ∧ (∀ client os e w',
      exec env (getDefaultAMIID client os) w = (Returned (inr e), w') →
      cache w' = cache w ∧ locked w' = false
      ∧ match amiFilters !! os with
        | Some _ =>
          misses (getTime env w') (cache w') (amiCacheKey (Region client) os)
          ∧ queries (trace w') = S (queries (trace w))
          ∧ queries (trace (exec env (getDefaultAMIID client os) w').2)
            = S (queries (trace w'))
        | None =>
          queries (trace w') = queries (trace w)
          ∧ exec env (getDefaultAMIID client os) w'
            = (Returned (inr e), after w' [EvLock; EvUnlock])
        end).
Proof.
  intros Hmono Hfree. split.
  - intros client id e w' Hexec.
    destruct (getVpc_error_world _ _ _ _ _ _ Hfree Hexec) as [Hmiss ->].
    pose proof (misses_next_call env w
                  [EvLock; EvGet (vpcCacheKey (Region client) id);
                   EvDescribeVpcs client (describeVpcsInput id); EvUnlock]
                  _ Hmono Hmiss) as Hnext.
    repeat split; try done.
    + unfold after; cbn [trace]. rewrite queries_app.
      cbn [queries List.filter isQuery length]. lia.
    + by apply getVpc_miss_queries.
  - intros client os e w' Hexec.
    destruct (amiFilters !! os) as [filter|] eqn:Hos.
    + destruct (getDefaultAMIID_error_world _ _ _ _ _ _ _ Hos Hfree Hexec) as [Hmiss ->].
      pose proof (misses_next_call env w
                    [EvLock; EvGet (amiCacheKey (Region client) os);
                     EvDescribeImages client (describeImagesInput filter); EvUnlock]
                    _ Hmono Hmiss) as Hnext.
      repeat split; try done.
      * unfold after; cbn [trace]. rewrite queries_app.
        cbn [queries List.filter isQuery length]. lia.
      * apply getDefaultAMIID_miss_queries; [by rewrite Hos|done|done].
    + rewrite getDefaultAMIID_exec in Hexec by done. rewrite Hos in Hexec.
      injection Hexec as <- <-.
      repeat split; try done.
      * unfold after; cbn [trace]. rewrite queries_app.
        cbn [queries List.filter isQuery length]. lia.
      * rewrite getDefaultAMIID_exec by done. by rewrite Hos.
Qed.

Lemma exampleClock_monotone (i j : nat) :
  (i <= j)%nat → exampleClock i <= exampleClock j.
Proof. unfold exampleClock. lia. Defined.

Lemma failed_lookup_caches_nothing_witness :
  monotone (failingEnv (SdkError "RequestLimitExceeded"))
  ∧ locked world0 = false
  ∧ cache (exec (failingEnv (SdkError "RequestLimitExceeded"))
             (getVpc exampleClient "vpc-0a") world0).2 = cache world0.
Proof.
  assert (Hmono : monotone (failingEnv (SdkError "RequestLimitExceeded"))).
  { intros i j. apply exampleClock_monotone. }
  split; [exact Hmono|]. split; [reflexivity|].
  apply (proj1 (@failed_lookup_caches_nothing exampleImports
                  (failingEnv (SdkError "RequestLimitExceeded")) world0 Hmono eq_refl)
           exampleClient "vpc-0a"
           (WithContext "failed to list vpc's" (SdkError "RequestLimitExceeded"))).
  reflexivity.
Defined.

(** C4, as stated, fails for the unsupported operating system: the call
    for "plan9" fails, and the call that follows it asks EC2 nothing. *)
Lemma unsupported_os_is_never_queried :
  (exec (answeringEnv [] exampleImages)
     (@getDefaultAMIID exampleImports exampleClient "plan9") world0).1
  = Returned (inr (Errorf "operating system %q not supported" ["plan9"]))
  ∧ queries (trace (exec (answeringEnv [] exampleImages)
                      (@getDefaultAMIID exampleImports exampleClient "plan9")
                      (exec (answeringEnv [] exampleImages)
                         (@getDefaultAMIID exampleImports exampleClient "plan9")
                         world0).2).2) = 0%nat.
Proof. split; reflexivity. Qed.

(** ** Goroutines *)

Section Goroutines.
Context {R : Type} (env : Env).
Implicit Types (p q : prog R) (w : World) (pool : list (prog R)).

Lemma exec_step p p' w w' :
  step env p w = Some (p', w') → exec env p w = exec env p' w'.
Proof.
  destruct p; simpl; try done.
  - destruct (locked w); [done|]. by intros [= <- <-].
  - destruct (locked w); by intros [= <- <-].
  - by intros [= <- <-].
  - by intros [= <- <-].
  - by intros [= <- <-].
  - by intros [= <- <-].
Qed.

Lemma step_finished p w : finished p = true → step env p w = None.
Proof. by destruct p. Qed.

Lemma exec_finished p w :
  finished p = true → ∃ o, outcome p = Some o ∧ exec env p w = (o, w).
Proof. destruct p; try done; intros _; eexists; by split. Qed.

Lemma finished_defer_Unlock q : finished (defer_Unlock q) = false.
Proof. by destruct q. Qed.

(** Inside the call the goroutine always has a next effect; it stays inside
    with the lock, or leaves the call and releases the lock. *)
Lemma step_defer_Unlock q w :
  nolock q → locked w = true →
  ∃ p' w', step env (defer_Unlock q) w = Some (p', w')
           ∧ length (trace w') = S (length (trace w))
           ∧ ((∃ q', p' = defer_Unlock q' ∧ nolock q' ∧ locked w' = true)
              ∨ (finished p' = true ∧ locked w' = false)).
Proof.
  intros Hq Hheld.
  destruct q; simpl in *; try done; rewrite ?Hheld;
    eexists _, _; (split; [reflexivity|]); simpl; rewrite length_app; simpl;
    (split; [lia|]); eauto.
Qed.

Lemma exec_n_unfold (P : prog R) (n : nat) w :
  exec_n env P (S n) w
  = (let (o, w') := exec env P w in
     let (os, w'') := exec_n env P n w' in (o :: os, w'')).
Proof. reflexivity. Qed.

Lemma exec_n_S (P : prog R) (k : nat) : ∀ w0,
  (exec_n env P (S k) w0).1
  = ((exec_n env P k w0).1 ++ [(exec env P (exec_n env P k w0).2).1])%list
  ∧ (exec_n env P (S k) w0).2 = (exec env P (exec_n env P k w0).2).2.
Proof.
  induction k as [|k IH]; intros w0.
  - simpl. by destruct (exec env P w0).
  - rewrite (exec_n_unfold P (S k) w0), (exec_n_unfold P k w0).
    destruct (exec env P w0) as [o w1].
    destruct (IH w1) as [IH1 IH2].
    destruct (exec_n env P (S k) w1) as [os' w''].
    destruct (exec_n env P k w1) as [os w'].
    cbn [fst snd] in *. subst. done.
Qed.

Lemma countFinished_insert pool : ∀ tid p p',
  pool !! tid = Some p →
  countFinished (<[tid := p']> pool)
  = (countFinished pool + (if finished p' then 1 else 0)
     - (if finished p then 1 else 0))%nat.
Proof.
  unfold countFinished.
  induction pool as [|a pool IH]; intros tid p p' Hp; [done|].
  destruct tid as [|tid]; simpl in *.
  - injection Hp as ->. destruct (finished p), (finished p'); simpl; lia.
  - specialize (IH _ _ p' Hp).
    assert (Hpos : finished p = true → (1 <= length (List.filter finished pool))%nat).
    { clear IH. revert tid Hp. induction pool as [|b pool IH]; intros tid Hp Hf; [done|].
      destruct tid; simpl in *.
      - injection Hp as ->. rewrite Hf. simpl. lia.
      - specialize (IH _ Hp Hf). destruct (finished b); simpl; lia. }
    destruct (finished a); simpl; rewrite IH;
      destruct (finished p), (finished p'); try specialize (Hpos eq_refl); lia.
Qed.

Lemma countFinished_all pool :
  Forall (λ p, finished p = true) pool → countFinished pool = length pool.
Proof.
  unfold countFinished. induction 1 as [|p pool Hp _ IH]; [done|].
  simpl. rewrite Hp. simpl. by rewrite IH.
Qed.

Lemma countFinished_replicate (N : nat) p :
  finished p = false → countFinished (replicate N p) = 0%nat.
Proof.
  intros Hp. unfold countFinished. induction N as [|N IH]; [done|].
  simpl. by rewrite Hp.
Qed.

End Goroutines.

Section Serial.
Context {R : Type} (env : Env) (q0 : prog R) (w0 : World).
Hypothesis Hq0 : nolock q0.

Lemma serial_init (N : nat) :
  locked w0 = false →
  serial env (Lock (defer_Unlock q0)) w0 (replicate N (Lock (defer_Unlock q0)), w0).
Proof.
  intros Hfree. unfold serial. simpl.
  rewrite countFinished_replicate by done. simpl. split.
  - intros i p Hi Hf. apply lookup_replicate in Hi as [-> _]. done.
  - left. repeat split; [done|].
    intros i p Hi _. by apply lookup_replicate in Hi as [-> _].
Qed.

Lemma serial_schedule (cfg : Config R) (tid : nat) :
  serial env (Lock (defer_Unlock q0)) w0 cfg →
  serial env (Lock (defer_Unlock q0)) w0 (schedule env cfg tid).
Proof.
  destruct cfg as [pool w]. unfold schedule. simpl.
  destruct (pool !! tid) as [p|] eqn:Hp; [|done].
  destruct (step env p w) as [[p' w']|] eqn:Hstep; [|done].
  pose proof (lookup_lt_Some _ _ _ Hp) as Hlt.
  assert (Hrun : finished p = false).
  { destruct (finished p) eqn:Hf; [|done]. by rewrite step_finished in Hstep. }
  unfold serial. cbn [fst snd]. intros [Hout Hstate].
  rewrite (countFinished_insert pool tid p p' Hp), Hrun.
  destruct Hstate as [(Hfree & Hw & Hwait)|(Hheld & tid0 & q & Htid0 & Hq & Hwait & Hexec)].
  - (* the lock is free: the goroutine enters the call *)
    pose proof (Hwait _ _ Hp Hrun) as ->.
    simpl in Hstep. rewrite Hfree in Hstep. injection Hstep as <- <-.
    rewrite finished_defer_Unlock.
    replace (countFinished pool + 0 - 0)%nat with (countFinished pool) by lia.
    split.
    + intros i p1 Hi Hf. destruct (decide (i = tid)) as [->|Hne].
      * rewrite list_lookup_insert_eq in Hi by done. injection Hi as <-.
        by rewrite finished_defer_Unlock in Hf.
      * rewrite list_lookup_insert_ne in Hi by done. eauto.
    + right. split; [done|]. exists tid, q0.
      split; [by rewrite list_lookup_insert_eq|]. split; [done|]. split.
      * intros i p1 Hne Hi Hf. rewrite list_lookup_insert_ne in Hi by done. eauto.
      * rewrite <- Hw. simpl. by rewrite Hfree.
  - destruct (decide (tid = tid0)) as [->|Hne].
    + (* the goroutine inside the call runs its next effect *)
      rewrite Hp in Htid0. injection Htid0 as ->.
      destruct (step_defer_Unlock env q w Hq Hheld)
        as (p'' & w'' & Hs & _ & Hcase).
      rewrite Hstep in Hs. injection Hs as <- <-.
      pose proof (exec_step env _ _ _ _ Hstep) as Hsame.
      destruct Hcase as [(q' & -> & Hq' & Hheld')|(Hfin & Hfree')].
      * rewrite finished_defer_Unlock.
        replace (countFinished pool + 0 - 0)%nat with (countFinished pool) by lia.
        split.
        -- intros i p1 Hi Hf. destruct (decide (i = tid0)) as [->|Hne].
           ++ rewrite list_lookup_insert_eq in Hi by done. injection Hi as <-.
              by rewrite finished_defer_Unlock in Hf.
           ++ rewrite list_lookup_insert_ne in Hi by done. eauto.
        -- right. split; [done|]. exists tid0, q'.
           split; [by rewrite list_lookup_insert_eq|]. split; [done|]. split.
           ++ intros i p1 Hne Hi Hf.
              rewrite list_lookup_insert_ne in Hi by done. eauto.
           ++ by rewrite <- Hsame.
      * rewrite Hfin.
        replace (countFinished pool + 1 - 0)%nat with (S (countFinished pool)) by lia.
        destruct (exec_finished env p' w' Hfin) as (o & Ho & Hexec').
        destruct (exec_n_S env (Lock (defer_Unlock q0)) (countFinished pool) w0) as [Hos Hws].
        rewrite <- Hexec, Hsame, Hexec' in Hos, Hws. cbn [fst snd] in Hos, Hws.
        split.
        -- intros i p1 Hi Hf. destruct (decide (i = tid0)) as [->|Hne].
           ++ rewrite list_lookup_insert_eq in Hi by done. injection Hi as <-.
              exists o. split; [done|]. rewrite Hos. apply in_or_app. right. by left.
           ++ rewrite list_lookup_insert_ne in Hi by done.
              destruct (Hout _ _ Hi Hf) as (o1 & Ho1 & Hin).
              exists o1. split; [done|]. rewrite Hos. apply in_or_app. by left.
        -- left. split; [done|]. split; [done|].
           intros i p1 Hi Hf. destruct (decide (i = tid0)) as [->|Hne].
           ++ rewrite list_lookup_insert_eq in Hi by done. injection Hi as <-.
              congruence.
           ++ rewrite list_lookup_insert_ne in Hi by done. eauto.
    + (* any other goroutine waits for the lock *)
      pose proof (Hwait _ _ Hne Hp Hrun) as ->.
      simpl in Hstep. by rewrite Hheld in Hstep.
Qed.

Lemma serial_run (sched : list nat) : ∀ cfg : Config R,
  serial env (Lock (defer_Unlock q0)) w0 cfg →
  serial env (Lock (defer_Unlock q0)) w0 (run env sched cfg).
Proof.
  induction sched as [|tid sched IH]; intros cfg Hcfg; [done|].
  change (run env (tid :: sched) cfg) with (run env sched (schedule env cfg tid)).
  apply IH. by apply serial_schedule.
Qed.

Lemma schedule_length (cfg : Config R) (tid : nat) :
  length (schedule env cfg tid).1 = length cfg.1.
Proof.
  unfold schedule. destruct (cfg.1 !! tid) as [p|]; [|done].
  destruct (step env p cfg.2) as [[p' w']|]; [|done].
  simpl. by rewrite length_insert.
Qed.

Lemma run_length (sched : list nat) : ∀ cfg : Config R,
  length (run env sched cfg).1 = length cfg.1.
Proof.
  induction sched as [|tid sched IH]; intros cfg; [done|].
  change (run env (tid :: sched) cfg) with (run env sched (schedule env cfg tid)).
  rewrite IH. apply schedule_length.
Qed.

(** When every goroutine has left the call, the shared state and the
    results are those of the calls made one after the other. *)
Lemma serial_final (cfg : Config R) :
  serial env (Lock (defer_Unlock q0)) w0 cfg →
  Forall (λ p, finished p = true) cfg.1 →
  cfg.2 = (exec_n env (Lock (defer_Unlock q0)) (length cfg.1) w0).2
  ∧ Forall (λ p, ∃ o, outcome p = Some o
                      ∧ In o (exec_n env (Lock (defer_Unlock q0)) (length cfg.1) w0).1) cfg.1.
Proof.
  destruct cfg as [pool w]. unfold serial. simpl. intros [Hout Hstate] Hall.
  rewrite (countFinished_all pool Hall) in *. split.
  - destruct Hstate as [(_ & Hw & _)|(_ & tid & q & Htid & _)]; [done|].
    rewrite Forall_lookup in Hall. specialize (Hall _ _ Htid).
    by rewrite finished_defer_Unlock in Hall.
  - apply Forall_lookup. intros i p Hi.
    rewrite Forall_lookup in Hall. eauto.
Qed.

(** While a goroutine has not left the call, some goroutine can run. *)
Lemma serial_progress (cfg : Config R) :
  serial env (Lock (defer_Unlock q0)) w0 cfg →
  Exists (λ p, finished p = false) cfg.1 →
  ∃ tid, length (trace (schedule env cfg tid).2) = S (length (trace cfg.2)).
Proof.
  destruct cfg as [pool w]. unfold serial, schedule. simpl.
  intros [_ Hstate] Hsome.
  destruct Hstate as [(Hfree & _ & Hwait)|(Hheld & tid & q & Htid & Hq & _)].
  - apply Exists_exists in Hsome as (p & Hin & Hf).
    apply list_elem_of_lookup in Hin as [tid Htid].
    pose proof (Hwait _ _ Htid Hf) as ->.
    exists tid. rewrite Htid. simpl. rewrite Hfree. simpl.
    rewrite length_app. simpl. lia.
  - exists tid. rewrite Htid.
    destruct (step_defer_Unlock env q w Hq Hheld) as (p' & w' & -> & Hlen & _).
    done.
Qed.

End Serial.

(** ** Callers racing for one key *)

Section Coalescing.
Context `{Imports} (env : Env).

Lemma nolock_getVpcBody (client : EC2) (id : string) :
  nolock (getVpcBody client id).
Proof.
  unfold getVpcBody. simpl. intros [[vpc|s]|]; simpl; try done.
  intros [out|err]; simpl; [|done].
  destruct (negb _); simpl; [done|]. by destruct (Vpcs out).
Qed.

Lemma nolock_getDefaultAMIIDBody (client : EC2) (os : OperatingSystem) :
  nolock (getDefaultAMIIDBody client os).
Proof.
  unfold getDefaultAMIIDBody. destruct (amiFilters !! os) as [filter|]; simpl; [|done].
  intros [[vpc|s]|]; simpl; try done.
  intros [out|err]; simpl; [|done].
  destruct (_ =? _)%nat; simpl; [done|]. by destruct (Images out).
Qed.

Lemma after_nil (w : World) : locked w = false → after w [] = w.
Proof.
  destruct w as [l c t]. simpl. intros ->. unfold after. simpl.
  by rewrite app_nil_r.
Qed.

Lemma after_after (w : World) (evs evs' : list Event) :
  after (after w evs) evs' = after w (evs ++ evs').
Proof. unfold after. simpl. by rewrite app_assoc. Qed.

Lemma queries_hits (key : string) (n : nat) :
  queries (concat (replicate n [EvLock; EvGet key; EvUnlock])) = 0%nat.
Proof. induction n as [|n IH]; [done|]. simpl. exact IH. Qed.

(** Once the key is in the cache for good, every call is a hit. *)
Lemma getVpc_hits (client : EC2) (id : string) (vpc : Vpc) (n : nat) : ∀ w,
  locked w = false →
  (∀ i, Get (clock env i) (cache w) (vpcCacheKey (Region client) id) = Some (VVpc vpc)) →
  exec_n env (getVpc client id) n w
  = (replicate n (Returned (inl vpc)),
     after w (concat (replicate n
                [EvLock; EvGet (vpcCacheKey (Region client) id); EvUnlock]))).
Proof.
  induction n as [|n IH]; intros w Hfree Hhot.
  - simpl. by rewrite after_nil.
  - rewrite exec_n_unfold. rewrite getVpc_exec by done.
    unfold getTime. rewrite Hhot. rewrite IH by done.
    by rewrite after_after.
Qed.

Lemma getDefaultAMIID_hits (client : EC2) (os : OperatingSystem) (filter : amiFilter)
    (amiID : string) (n : nat) : ∀ w,
  amiFilters !! os = Some filter →
  locked w = false →
  (∀ i, Get (clock env i) (cache w) (amiCacheKey (Region client) os)
        = Some (VString amiID)) →
  exec_n env (getDefaultAMIID client os) n w
  = (replicate n (Returned (inl amiID)),
     after w (concat (replicate n
                [EvLock; EvGet (amiCacheKey (Region client) os); EvUnlock]))).
Proof.
  induction n as [|n IH]; intros w Hos Hfree Hhot.
  - simpl. by rewrite after_nil.
  - rewrite exec_n_unfold. rewrite getDefaultAMIID_exec by done.
    unfold getTime. rewrite Hos, Hhot. rewrite IH by done.
    by rewrite after_after.
Qed.

(** A value written within the TTL window of the run is a hit for every
    reading of the clock. *)
Lemma afterSet_hot (w : World) (key : string) (x : value) (evs : list Event) (n i : nat) :
  withinTTL env (defaultExpiration (cache w)) →
  Get (clock env i) (cache (afterSet w (clock env n) key x evs)) key = Some x.
Proof.
  intros Httl. simpl. rewrite Get_SetDefault_eq.
  destruct (Z.ltb_spec (clock env i) (clock env n + defaultExpiration (cache w)));
    [done|]. specialize (Httl i n). lia.
Qed.

(** [S n] calls of [getVpc] in a row, the first one a miss that EC2 answers
    with one network. *)
Lemma getVpc_calls (client : EC2) (id : string) (vpc : Vpc) (n : nat) (w : World) :
  locked w = false →
  withinTTL env (defaultExpiration (cache w)) →
  misses (getTime env w) (cache w) (vpcCacheKey (Region client) id) →
  vpcsAnswer env w client id = inl {| Vpcs := [vpc] |} →
  let key := vpcCacheKey (Region client) id in
  (exec_n env (getVpc client id) (S n) w).1 = replicate (S n) (Returned (inl vpc))
  ∧ trace (exec_n env (getVpc client id) (S n) w).2
    = (trace w
       ++ [EvLock; EvGet key; EvDescribeVpcs client (describeVpcsInput id);
           EvSet key (VVpc vpc); EvUnlock]
       ++ concat (replicate n [EvLock; EvGet key; EvUnlock]))%list.
Proof.
  intros Hfree Httl Hmiss Hanswer key. unfold misses in Hmiss.
  rewrite exec_n_unfold. rewrite getVpc_exec by done.
  rewrite Hmiss, Hanswer. cbn [Vpcs]. unfold setTime.
  rewrite (getVpc_hits client id vpc); [|done|intros i; by apply afterSet_hot].
  split; [done|]. simpl. by rewrite <- app_assoc.
Qed.

Lemma getDefaultAMIID_calls (client : EC2) (os : OperatingSystem) (filter : amiFilter)
    (out : DescribeImagesOutput) (image0 : Image) (rest : list Image) (n : nat)
    (w : World) :
  amiFilters !! os = Some filter →
  locked w = false →
  withinTTL env (defaultExpiration (cache w)) →
  misses (getTime env w) (cache w) (amiCacheKey (Region client) os) →
  imagesAnswer env w client filter = inl out →
  Images out = image0 :: rest →
  let key := amiCacheKey (Region client) os in
  let amiID := ImageId (newestImage image0 (Images out)) in
  (exec_n env (getDefaultAMIID client os) (S n) w).1
  = replicate (S n) (Returned (inl amiID))
  ∧ trace (exec_n env (getDefaultAMIID client os) (S n) w).2
    = (trace w
       ++ [EvLock; EvGet key; EvDescribeImages client (describeImagesInput filter);
           EvSet key (VString amiID); EvUnlock]
       ++ concat (replicate n [EvLock; EvGet key; EvUnlock]))%list.
Proof.
  intros Hos Hfree Httl Hmiss Hanswer Himages key amiID. unfold misses in Hmiss.
  rewrite exec_n_unfold. rewrite getDefaultAMIID_exec by done.
  rewrite Hos, Hmiss, Hanswer. subst amiID. rewrite Himages.
  cbn -[newestImage exec_n]. unfold setTime.
  rewrite (getDefaultAMIID_hits client os filter
             (ImageId (newestImage image0 (image0 :: rest))));
    [|done|done|intros i; by apply afterSet_hot].
  split; [done|]. simpl. by rewrite <- app_assoc.
Qed.

(** Goroutines that all run the call [Lock; defer Unlock; body]: while one
    of them has not returned some goroutine can run, and when all have
    returned the results and the trace are those of the calls made one
    after the other. *)
Lemma racing_calls_are_serial {R : Type} (body : prog R) (w : World) (N : nat)
    (sched : list nat) :
  nolock body →
  locked w = false →
  let call := Lock (defer_Unlock body) in
  let cfg := run env sched (replicate N call, w) in
  (Exists (λ p, finished p = false) cfg.1 →
   ∃ tid, length (trace (schedule env cfg tid).2) = S (length (trace cfg.2)))
  ∧ (Forall (λ p, finished p = true) cfg.1 →
     cfg.2 = (exec_n env call N w).2
     ∧ Forall (λ p, ∃ o, outcome p = Some o ∧ In o (exec_n env call N w).1) cfg.1).
Proof.
  intros Hbody Hfree call cfg.
  assert (Hserial : serial env call w cfg).
  { apply serial_run; [done|]. by apply serial_init. }
  split.
  - by apply (serial_progress env body w).
  - intros Hall.
    assert (Hlen : length cfg.1 = N).
    { unfold cfg. rewrite run_length. simpl. by rewrite length_replicate. }
    pose proof (serial_final env body w cfg Hserial Hall) as Hfinal.
    by rewrite Hlen in Hfinal.
Qed.

Lemma returned_all {R : Type} (pool : list (prog R)) (os : list (Outcome R)) (r : R) :
  Forall (λ p, ∃ o, outcome p = Some o ∧ In o os) pool →
  (∀ o, In o os → o = Returned r) →
  Forall (λ p, p = Ret r) pool.
Proof.
  intros Hpool Hos. eapply Forall_impl; [exact Hpool|].
  intros p (o & Ho & Hin). specialize (Hos _ Hin). subst o.
  destruct p; simpl in Ho; congruence.
Qed.

End Coalescing.

(** C1, as the code has it.  Goroutines that call [getVpc] (or
    [getDefaultAMIID]) for one key that misses run their calls one at a
    time under [cacheLock], each reading the cache only after it has taken
    the lock; while one of them has not returned, one of them can run.
    When the first query is answered (with exactly one network, or with at
    least one image) and all readings of the clock lie within one TTL, the
    query is made once, the callers after the first find the entry and
    return it without a query, and all callers return the same value. *)
Theorem one_query_when_the_first_succeeds `{Imports}
    (env : Env) (w : World) (N : nat) (sched : list nat) :
  locked w = false →
  withinTTL env (defaultExpiration (cache w)) →
  (∀ client id vpc,
      misses (getTime env w) (cache w) (vpcCacheKey (Region client) id) →
      vpcsAnswer env w client id = inl {| Vpcs := [vpc] |} →
      let key := vpcCacheKey (Region client) id in
      let cfg := run env sched (replicate (S N) (getVpc client id), w) in
      (Exists (λ p, finished p = false) cfg.1 →
       ∃ tid, length (trace (schedule env cfg tid).2) = S (length (trace cfg.2)))
      ∧ (Forall (λ p, finished p = true) cfg.1 →
         Forall (λ p, p = Ret (inl vpc)) cfg.1
         ∧ queries (trace cfg.2) = S (queries (trace w))
         ∧ trace cfg.2
           = (trace w
              ++ [EvLock; EvGet key; EvDescribeVpcs client (describeVpcsInput id);
                  EvSet key (VVpc vpc); EvUnlock]
              ++ concat (replicate N [EvLock; EvGet key; EvUnlock]))%list))
  ∧ (∀ client os filter out image0 rest,
      amiFilters !! os = Some filter →
      misses (getTime env w) (cache w) (amiCacheKey (Region client) os) →
      imagesAnswer env w client filter = inl out →
      Images out = image0 :: rest →
      let key := amiCacheKey (Region client) os in
      let amiID := ImageId (newestImage image0 (Images out)) in
      let cfg := run env sched (replicate (S N) (getDefaultAMIID client os), w) in
      (Exists (λ p, finished p = false) cfg.1 →
       ∃ tid, length (trace (schedule env cfg tid).2) = S (length (trace cfg.2)))
      ∧ (Forall (λ p, finished p = true) cfg.1 →
         Forall (λ p, p = Ret (inl amiID)) cfg.1
         ∧ queries (trace cfg.2) = S (queries (trace w))
         ∧ trace cfg.2
           = (trace w
              ++ [EvLock; EvGet key; EvDescribeImages client (describeImagesInput filter);
                  EvSet key (VString amiID); EvUnlock]
              ++ concat (replicate N [EvLock; EvGet key; EvUnlock]))%list)).
Proof.
  intros Hfree Httl. split.
  - intros client id vpc Hmiss Hanswer key cfg.
    destruct (racing_calls_are_serial env (getVpcBody client id) w (S N) sched
                (nolock_getVpcBody client id) Hfree) as [Hprogress Hfinal].
    split; [exact Hprogress|]. intros Hall.
    destruct (Hfinal Hall) as [Hw Hpool].
    destruct (getVpc_calls env client id vpc N w Hfree Httl Hmiss Hanswer)
      as [Hresults Htrace].
    fold (getVpc client id) in Hw, Hpool. fold cfg in Hw, Hpool.
    assert (Htr : trace cfg.2
      = (trace w
         ++ [EvLock; EvGet key; EvDescribeVpcs client (describeVpcsInput id);
             EvSet key (VVpc vpc); EvUnlock]
         ++ concat (replicate N [EvLock; EvGet key; EvUnlock]))%list).
    { rewrite Hw. exact Htrace. }
    split; [|split; [|exact Htr]].
    + eapply returned_all; [exact Hpool|].
      intros o Ho. rewrite Hresults in Ho. rewrite <- list_elem_of_In in Ho.
      by apply elem_of_replicate in Ho as [-> _].
    + rewrite Htr, !queries_app, queries_hits.
      cbn [queries List.filter isQuery length]. lia.
  - intros client os filter out image0 rest Hos Hmiss Hanswer Himages key amiID cfg.
    destruct (racing_calls_are_serial env (getDefaultAMIIDBody client os) w (S N) sched
                (nolock_getDefaultAMIIDBody client os) Hfree) as [Hprogress Hfinal].
    split; [exact Hprogress|]. intros Hall.
    destruct (Hfinal Hall) as [Hw Hpool].
    destruct (getDefaultAMIID_calls env client os filter out image0 rest N w
                Hos Hfree Httl Hmiss Hanswer Himages) as [Hresults Htrace].
    fold (getDefaultAMIID client os) in Hw, Hpool. fold cfg in Hw, Hpool.
    assert (Htr : trace cfg.2
      = (trace w
         ++ [EvLock; EvGet key; EvDescribeImages client (describeImagesInput filter);
             EvSet key (VString amiID); EvUnlock]
         ++ concat (replicate N [EvLock; EvGet key; EvUnlock]))%list).
    { rewrite Hw. exact Htrace. }
    split; [|split; [|exact Htr]].
    + eapply returned_all; [exact Hpool|].
      intros o Ho. rewrite Hresults in Ho. rewrite <- list_elem_of_In in Ho.
      by apply elem_of_replicate in Ho as [-> _].
    + rewrite Htr, !queries_app, queries_hits.
      cbn [queries List.filter isQuery length]. lia.
Qed.

Lemma exampleClock_withinTTL (i j : nat) :
  exampleClock i < exampleClock j + 5 * Minute.
Proof. unfold exampleClock, Minute. lia. Defined.

Lemma one_query_when_the_first_succeeds_witness :
  locked world0 = false
  ∧ withinTTL (answeringEnv [exampleVpc] exampleImages) (defaultExpiration (cache world0))
  ∧ Forall (λ p, finished p = true)
      (run (answeringEnv [exampleVpc] exampleImages)
         [1; 0; 1; 0; 1; 0; 0; 1; 1; 0; 0; 0]%nat
         (replicate 2 (getVpc exampleClient "vpc-0a"), world0)).1
  ∧ queries (trace (run (answeringEnv [exampleVpc] exampleImages)
                      [1; 0; 1; 0; 1; 0; 0; 1; 1; 0; 0; 0]%nat
                      (replicate 2 (getVpc exampleClient "vpc-0a"), world0)).2)
    = S (queries (trace world0)).
Proof.
  assert (Httl : withinTTL (answeringEnv [exampleVpc] exampleImages)
                   (defaultExpiration (cache world0))).
  { intros i j. apply exampleClock_withinTTL. }
  assert (Hall : Forall (λ p, finished p = true)
      (run (answeringEnv [exampleVpc] exampleImages)
         [1; 0; 1; 0; 1; 0; 0; 1; 1; 0; 0; 0]%nat
         (replicate 2 (getVpc exampleClient "vpc-0a"), world0)).1).
  { repeat constructor. }
  split; [reflexivity|]. split; [exact Httl|]. split; [exact Hall|].
  apply (proj2 (proj1 (@one_query_when_the_first_succeeds exampleImports
                         (answeringEnv [exampleVpc] exampleImages) world0 1
                         [1; 0; 1; 0; 1; 0; 0; 1; 1; 0; 0; 0]%nat eq_refl Httl)
                  exampleClient "vpc-0a" exampleVpc eq_refl eq_refl) Hall).
Defined.

(** C1, as stated, fails: when the query fails nothing is cached, so each of
    two callers that race for the key makes the query, here twice in all. *)
Lemma failing_query_is_made_by_every_caller :
  Forall (λ p, finished p = true)
    (run (failingEnv (SdkError "RequestLimitExceeded"))
       [0; 1; 0; 1; 0; 1; 0; 1; 1; 1; 1]%nat
       (replicate 2 (getVpc exampleClient "vpc-0a"), world0)).1
  ∧ queries (trace (run (failingEnv (SdkError "RequestLimitExceeded"))
                      [0; 1; 0; 1; 0; 1; 0; 1; 1; 1; 1]%nat
                      (replicate 2 (getVpc exampleClient "vpc-0a"), world0)).2)
    = 2%nat.
Proof. split; [repeat constructor|reflexivity]. Qed.

(** * More of the package *)

(** ** What one call does *)

Section OneCall.
Context `{Imports}.

Lemma execCall_Vpc (env : Env) (w : World) (client : EC2) (id : string) :
  execCall env (CallVpc client id) w
  = (VpcResult (exec env (getVpc client id) w).1, (exec env (getVpc client id) w).2).
Proof. unfold execCall. by destruct (exec env (getVpc client id) w). Qed.

Lemma execCall_AMI (env : Env) (w : World) (client : EC2) (os : OperatingSystem) :
  execCall env (CallAMI client os) w
  = (AMIResult (exec env (getDefaultAMIID client os) w).1,
     (exec env (getDefaultAMIID client os) w).2).
Proof. unfold execCall. by destruct (exec env (getDefaultAMIID client os) w). Qed.

(** The four ways a call can go once it has the lock: rejected before the
    cache is read, answered by what the cache holds, a miss whose query or
    answer fails, a miss that stores and returns a value. *)
Lemma execCall_cases (env : Env) (w : World) (c : Call) :
  locked w = false →
  let key := callKey c in
  let r := (execCall env c w).1 in
  let w' := (execCall env c w).2 in
  blocked r = false
  ∧ ((w' = after w [EvLock; EvUnlock]
      ∧ returnedValue r = None ∧ panicked r = false
      ∧ ¬ supported c)
     ∨ supported c ∧ (∃ x, Get (getTime env w) (cache w) key = Some x
             ∧ w' = after w [EvLock; EvGet key; EvUnlock]
             ∧ panicked r = negb (asserted c x)
             ∧ returnedValue r = if asserted c x then Some x else None)
     ∨ supported c ∧ (Get (getTime env w) (cache w) key = None
        ∧ returnedValue r = None ∧ panicked r = false
        ∧ ∃ q, isQuery q = true ∧ w' = after w [EvLock; EvGet key; q; EvUnlock])
     ∨ supported c ∧ (Get (getTime env w) (cache w) key = None
        ∧ panicked r = false
        ∧ ∃ q x, isQuery q = true ∧ asserted c x = true ∧ returnedValue r = Some x
                 ∧ w' = afterSet w (setTime env w) key x
                          [EvLock; EvGet key; q; EvSet key x; EvUnlock])).
Proof.
  intros Hfree key r w'. subst key r w'. destruct c as [client id|client os].
  - rewrite execCall_Vpc. cbn [fst snd callKey]. rewrite getVpc_exec by done.
    split; [by repeat case_match|]. right.
    destruct (Get _ _ _) as [[vpc|s]|] eqn:Hget.
    + left. split; [done|]. by exists (VVpc vpc).
    + left. split; [done|]. by exists (VString s).
    + right. cbn zeta. destruct (vpcsAnswer env w client id) as [out|err];
        [destruct (Vpcs out) as [|vpc0 [|vpc1 rest]]|].
      * left. repeat split; try done.
        by exists (EvDescribeVpcs client (describeVpcsInput id)).
      * right. repeat split; try done.
        by exists (EvDescribeVpcs client (describeVpcsInput id)), (VVpc vpc0).
      * left. repeat split; try done.
        by exists (EvDescribeVpcs client (describeVpcsInput id)).
      * left. repeat split; try done.
        by exists (EvDescribeVpcs client (describeVpcsInput id)).
  - rewrite execCall_AMI. cbn [fst snd callKey]. rewrite getDefaultAMIID_exec by done.
    split; [by repeat case_match|].
    destruct (amiFilters !! os) as [filter|] eqn:Hos.
    + assert (Hsup : supported (CallAMI client os)) by (simpl; by rewrite Hos).
      right. destruct (Get _ _ _) as [[vpc|s]|] eqn:Hget.
      * left. split; [done|]. by exists (VVpc vpc).
      * left. split; [done|]. by exists (VString s).
      * right. cbn zeta. destruct (imagesAnswer env w client filter) as [out|err];
          [destruct (Images out) as [|image0 rest]|].
        -- left. repeat split; try done.
           by exists (EvDescribeImages client (describeImagesInput filter)).
        -- right. repeat split; try done.
           by exists (EvDescribeImages client (describeImagesInput filter)),
             (VString (ImageId (newestImage image0 (image0 :: rest)))).
        -- left. repeat split; try done.
           by exists (EvDescribeImages client (describeImagesInput filter)).
    + left. repeat split; try done. simpl. rewrite Hos. by intros [? ?].
Qed.

Lemma writes_app (t u : list Event) :
  writes (t ++ u) = (writes t + writes u)%nat.
Proof. unfold writes. by rewrite List.filter_app, length_app. Qed.

End OneCall.

(** ** Root device paths *)

Section RootDevice.
Context `{Imports}.

Lemma amiFilters_supported (os : OperatingSystem) :
  is_Some (amiFilters !! os)
  ↔ os = OperatingSystemCoreos ∨ os = OperatingSystemCentOS ∨ os = OperatingSystemUbuntu.
Proof.
  unfold amiFilters. cbn [list_to_map foldr curry fst snd uncurry].
  rewrite !lookup_insert_is_Some'.
  pose proof (lookup_empty_is_Some (M := gmap OperatingSystem) (A := amiFilter) os).
  intuition congruence.
Qed.

Lemma getDefaultRootDevicePath_supported (os : OperatingSystem) :
  (∃ path, getDefaultRootDevicePath os = inl path)
  ↔ os = OperatingSystemCoreos ∨ os = OperatingSystemCentOS ∨ os = OperatingSystemUbuntu.
Proof.
  unfold getDefaultRootDevicePath.
  destruct (String.eqb_spec os OperatingSystemUbuntu);
    destruct (String.eqb_spec os OperatingSystemCentOS);
    destruct (String.eqb_spec os OperatingSystemCoreos);
    (split; [intros [path Hp]; first [done|tauto]|intros Hos; first [by eauto|tauto]]).
Qed.

End RootDevice.

(** X1. [getDefaultRootDevicePath] knows a path exactly for the operating
    systems that [amiFilters] has a filter for; the path is "/dev/sda1" or
    "/dev/xvda"; any other operating system gets the error "no default root
    path found". *)
Theorem root_device_path_iff_ami_filter `{Imports} (os : OperatingSystem) :
  (is_Some (amiFilters !! os) ↔ ∃ path, getDefaultRootDevicePath os = inl path)
  ∧ (∀ path, getDefaultRootDevicePath os = inl path →
             path = "/dev/sda1" ∨ path = "/dev/xvda")
  ∧ (amiFilters !! os = None ↔
     getDefaultRootDevicePath os
     = inr (Errorf "no default root path found for %s operating system" [os])).
Proof.
  pose proof (amiFilters_supported os) as Hami.
  pose proof (getDefaultRootDevicePath_supported os) as Hpath.
  split; [by rewrite Hami, Hpath|]. split.
  - unfold getDefaultRootDevicePath. intros path.
    repeat case_match; intros [= <-]; auto.
  - rewrite <- Hami in Hpath. split.
    + intros Hnone. unfold getDefaultRootDevicePath in *.
      repeat case_match; try done;
        exfalso; (assert (Hs : is_Some (amiFilters !! os)) by (apply Hpath; eauto));
        rewrite Hnone in Hs; by destruct Hs.
    + intros Herr. destruct (amiFilters !! os) as [f|] eqn:Hos; [|done].
      assert (Hs : ∃ path, getDefaultRootDevicePath os = inl path) by (apply Hpath; eauto).
      destruct Hs as [path Hp]. congruence.
Qed.

(** ** Calls one after the other *)

Section Calls2.
Context `{Imports}.

Lemma execCalls_cons (env : Env) (c : Call) (cs : list Call) (w : World) :
  (execCalls env (c :: cs) w).1
  = (execCall env c w).1 :: (execCalls env cs (execCall env c w).2).1
  ∧ (execCalls env (c :: cs) w).2 = (execCalls env cs (execCall env c w).2).2.
Proof.
  change (execCalls env (c :: cs) w)
    with (let (r, w') := execCall env c w in
          let (rs, w'') := execCalls env cs w' in (r :: rs, w'')).
  destruct (execCall env c w) as [r w1]. cbn [fst snd].
  by destruct (execCalls env cs w1) as [rs w2].
Qed.

(** A call that starts with the lock free ends with the lock free, and its
    effects lie between one [Lock] and one [Unlock]. *)
Lemma execCall_free (env : Env) (w : World) (c : Call) :
  locked w = false →
  blocked (execCall env c w).1 = false
  ∧ locked (execCall env c w).2 = false
  ∧ ∃ mid, trace (execCall env c w).2 = (trace w ++ EvLock :: mid ++ [EvUnlock])%list
           ∧ Forall (λ e, e ≠ EvLock ∧ e ≠ EvUnlock) mid.
Proof.
  intros Hfree. destruct (execCall_cases env w c Hfree) as [Hb Hcases].
  split; [done|].
  destruct Hcases as [(-> & _)|[(_ & x & _ & -> & _)|[(_ & _ & _ & _ & q & Hq & ->)
                     |(_ & _ & _ & q & x & Hq & _ & _ & ->)]]];
    (split; [done|]).
  - exists []. by split.
  - exists [EvGet (callKey c)]. split; [done|]. by repeat constructor.
  - exists [EvGet (callKey c); q]. split; [done|].
    repeat constructor; try done; by destruct q.
  - exists [EvGet (callKey c); q; EvSet (callKey c) x]. split; [done|].
    repeat constructor; try done; by destruct q.
Qed.

End Calls2.

(** X2. Whatever EC2 answers and whatever the cache holds, a call of
    [getVpc] or [getDefaultAMIID] that starts with the lock free returns
    (or panics) with the lock released, having taken the lock once, first,
    and released it once, last; so calls made one after the other never
    wait for each other. *)
Theorem calls_leave_the_lock_free `{Imports} (env : Env) (cs : list Call) (w : World) :
  locked w = false →
  Forall (λ r, blocked r = false) (execCalls env cs w).1
  ∧ locked (execCalls env cs w).2 = false
  ∧ (∀ c, ∃ mid,
        trace (execCall env c w).2 = (trace w ++ EvLock :: mid ++ [EvUnlock])%list
        ∧ Forall (λ e, e ≠ EvLock ∧ e ≠ EvUnlock) mid).
Proof.
  intros Hfree. split; [|split].
  - revert w Hfree. induction cs as [|c cs IH]; intros w Hfree; [by constructor|].
    destruct (execCalls_cons env c cs w) as [-> _].
    destruct (execCall_free env w c Hfree) as (Hb & Hfree' & _).
    constructor; [done|by apply IH].
  - revert w Hfree. induction cs as [|c cs IH]; intros w Hfree; [done|].
    destruct (execCalls_cons env c cs w) as [_ ->].
    destruct (execCall_free env w c Hfree) as (_ & Hfree' & _). by apply IH.
  - intros c. by destruct (execCall_free env w c Hfree) as (_ & _ & Hmid).
Qed.

Lemma calls_leave_the_lock_free_witness :
  locked world0 = false
  ∧ locked (@execCalls exampleImports (failingEnv (SdkError "RequestLimitExceeded"))
              [CallVpc exampleClient "vpc-0a"; CallAMI exampleClient "plan9";
               CallAMI exampleClient "ubuntu"] world0).2 = false.
Proof.
  split; [reflexivity|].
  apply (@calls_leave_the_lock_free exampleImports
           (failingEnv (SdkError "RequestLimitExceeded"))
           [CallVpc exampleClient "vpc-0a"; CallAMI exampleClient "plan9";
            CallAMI exampleClient "ubuntu"] world0 eq_refl).
Defined.

(** X3. One call asks EC2 at most once and writes the cache at most once.
    It writes only after its one query and only the value it returns, under
    the key it computed; a call that finds an entry asks and writes
    nothing. *)
Theorem call_queries_and_writes_at_most_once `{Imports}
    (env : Env) (w : World) (c : Call) :
  locked w = false →
  let r := (execCall env c w).1 in
  let w' := (execCall env c w).2 in
  (queries (trace w') = queries (trace w) ∨ queries (trace w') = S (queries (trace w)))
  ∧ ((writes (trace w') = writes (trace w) ∧ cache w' = cache w)
     ∨ (writes (trace w') = S (writes (trace w))
        ∧ queries (trace w') = S (queries (trace w))
        ∧ ∃ x, returnedValue r = Some x
               ∧ cache w' = SetDefault (setTime env w) (cache w) (callKey c) x))
  ∧ (is_Some (Get (getTime env w) (cache w) (callKey c)) →
     queries (trace w') = queries (trace w) ∧ cache w' = cache w).
Proof.
  intros Hfree r w'. subst r w'.
  destruct (execCall_cases env w c Hfree) as [_ Hcases].
  destruct Hcases as [(-> & _)|[(_ & x & Hx & -> & _)|[(_ & Hx & _ & _ & q & Hq & ->)
                     |(_ & Hx & _ & q & x & Hq & _ & Hr & ->)]]];
    unfold after, afterSet; cbn [trace cache];
    rewrite ?queries_app, ?writes_app;
    cbn [queries writes List.filter isQuery isSet length]; rewrite ?Hq.
  - split; [left; lia|]. split; [left; split; [lia|done]|].
    intros _. split; [lia|done].
  - split; [left; lia|]. split; [left; split; [lia|done]|].
    intros _. split; [lia|done].
  - assert (Hs : isSet q = false) by (by destruct q). rewrite Hs. cbn [length].
    split; [right; lia|]. split; [left; split; [lia|done]|].
    rewrite Hx. by intros [? ?].
  - assert (Hs : isSet q = false) by (by destruct q). rewrite Hs. cbn [length].
    split; [right; lia|]. split; [|rewrite Hx; by intros [? ?]].
    right. split; [lia|]. split; [lia|]. by exists x.
Qed.

Lemma call_queries_and_writes_at_most_once_witness :
  locked world0 = false
  ∧ (queries (trace (@execCall exampleImports (answeringEnv [exampleVpc] [])
                       (CallVpc exampleClient "vpc-0a") world0).2)
     = queries (trace world0)
     ∨ queries (trace (@execCall exampleImports (answeringEnv [exampleVpc] [])
                         (CallVpc exampleClient "vpc-0a") world0).2)
       = S (queries (trace world0))).
Proof.
  split; [reflexivity|].
  apply (@call_queries_and_writes_at_most_once exampleImports
           (answeringEnv [exampleVpc] []) world0 (CallVpc exampleClient "vpc-0a") eq_refl).
Defined.

(** ** What the cache holds *)

Section Entries.
Context `{Imports}.

Lemma prefix_vpc_vpcCacheKey (region id : string) :
  String.prefix "vpc-" (vpcCacheKey region id) = true.
Proof.
  unfold vpcCacheKey. rewrite !append_cons, append_nil_l. simpl.
  by destruct (region +:+ _).
Qed.

Lemma prefix_ami_vpcCacheKey (region id : string) :
  String.prefix "ami-id-" (vpcCacheKey region id) = false.
Proof. unfold vpcCacheKey. by rewrite !append_cons. Qed.

Lemma prefix_ami_amiCacheKey (region : string) (os : OperatingSystem) :
  String.prefix "ami-id-" (amiCacheKey region os) = true.
Proof.
  unfold amiCacheKey. rewrite !append_cons, append_nil_l. simpl.
  by destruct (region +:+ _).
Qed.

Lemma prefix_vpc_amiCacheKey (region : string) (os : OperatingSystem) :
  String.prefix "vpc-" (amiCacheKey region os) = false.
Proof. unfold amiCacheKey. by rewrite !append_cons. Qed.

Lemma Get_Some_inv (now : Z) (c : Cache) (k : string) (x : value) :
  Get now c k = Some x →
  ∃ it, items c !! k = Some it ∧ Object it = x ∧ now < Expiration it.
Proof.
  unfold Get. destruct (items c !! k) as [it|]; [|done].
  destruct (Z.ltb_spec now (Expiration it)); [|done].
  intros [= <-]. by exists it.
Qed.

Lemma Get_fresh (now : Z) (c : Cache) (k : string) (it : Item) :
  items c !! k = Some it → now < Expiration it → Get now c k = Some (Object it).
Proof.
  intros Hk Hlt. unfold Get. rewrite Hk.
  by destruct (Z.ltb_spec now (Expiration it)); [|lia].
Qed.

Lemma Get_expired (now : Z) (c : Cache) (k : string) (it : Item) :
  items c !! k = Some it → Expiration it <= now → Get now c k = None.
Proof.
  intros Hk Hge. unfold Get. rewrite Hk.
  by destruct (Z.ltb_spec now (Expiration it)); [lia|].
Qed.

(** A call for a key whose entry is read as a hit. *)
Lemma execCall_hit (env : Env) (w : World) (c : Call) (x : value) :
  locked w = false →
  supported c →
  Get (getTime env w) (cache w) (callKey c) = Some x →
  asserted c x = true →
  returnedValue (execCall env c w).1 = Some x
  ∧ (execCall env c w).2 = after w [EvLock; EvGet (callKey c); EvUnlock].
Proof.
  intros Hfree Hsup Hget Has.
  destruct (execCall_cases env w c Hfree) as [_ Hcases].
  destruct Hcases as [(_ & _ & _ & Hn)|[(_ & y & Hy & -> & _ & Hr)
                     |[(_ & Hy & _)|(_ & Hy & _)]]]; try done; try congruence.
  rewrite Hget in Hy. injection Hy as <-. by rewrite Has in Hr.
Qed.

(** The dynamic type a call asserts depends on its key only. *)
Lemma asserted_same_key (c c' : Call) (x : value) :
  callKey c' = callKey c → asserted c' x = asserted c x.
Proof.
  destruct c, c'; simpl; intros Hkey;
    first [done | by apply vpc_ami_keys_differ in Hkey
          |symmetry in Hkey; by apply vpc_ami_keys_differ in Hkey].
Qed.

(** Well-typed entries make the type assertion of a call succeed. *)
Lemma wellTyped_asserted (cch : Cache) (c : Call) (it : Item) :
  wellTyped cch → items cch !! callKey c = Some it → asserted c (Object it) = true.
Proof.
  intros Hwt Hk. specialize (Hwt _ _ Hk).
  destruct c as [client id|client os], (Object it) as [vpc|s]; cbn [callKey asserted] in *;
    first [done | by rewrite prefix_ami_vpcCacheKey in Hwt
          |by rewrite prefix_vpc_amiCacheKey in Hwt].
Qed.

Lemma wellTyped_SetDefault (cch : Cache) (c : Call) (x : value) (now : Z) :
  wellTyped cch → asserted c x = true → wellTyped (SetDefault now cch (callKey c) x).
Proof.
  intros Hwt Has k it. unfold SetDefault. simpl.
  destruct (decide (callKey c = k)) as [<-|Hne].
  - rewrite lookup_insert_eq. intros [= <-]. cbn [Object].
    destruct c, x; cbn [callKey asserted] in *;
      first [done | apply prefix_vpc_vpcCacheKey | apply prefix_ami_amiCacheKey].
  - rewrite lookup_insert_ne by done. apply Hwt.
Qed.

Lemma execCall_wellTyped (env : Env) (w : World) (c : Call) :
  locked w = false →
  wellTyped (cache w) →
  panicked (execCall env c w).1 = false ∧ wellTyped (cache (execCall env c w).2).
Proof.
  intros Hfree Hwt.
  destruct (execCall_cases env w c Hfree) as [_ Hcases].
  destruct Hcases as [(-> & _ & Hp & _)|[(_ & x & Hx & -> & Hp & _)
                     |[(_ & _ & _ & Hp & q & _ & ->)
                      |(_ & _ & Hp & q & x & _ & Has & _ & ->)]]]; try done.
  - split; [|done]. rewrite Hp.
    apply Get_Some_inv in Hx as (it & Hk & <- & _).
    by rewrite (wellTyped_asserted _ _ _ Hwt Hk).
  - split; [done|]. by apply wellTyped_SetDefault.
Qed.

(** Within one TTL of the run every entry written during the run is read as
    a hit. *)
Lemma Get_fromRun (env : Env) (cch : Cache) (k : string) (i : nat) :
  fromRun env cch →
  withinTTL env (defaultExpiration cch) →
  Get (clock env i) cch k = Object <$> items cch !! k.
Proof.
  intros Hrun Httl. destruct (items cch !! k) as [it|] eqn:Hk; simpl.
  - apply Get_fresh; [done|]. destruct (Hrun _ _ Hk) as [n ->]. apply Httl.
  - unfold Get. by rewrite Hk.
Qed.

(** Within one TTL of the run a call only adds to the cache, and what it
    returns is in the cache under its key afterwards. *)
Lemma execCall_grows (env : Env) (w : World) (c : Call) :
  locked w = false →
  fromRun env (cache w) →
  withinTTL env (defaultExpiration (cache w)) →
  let r := (execCall env c w).1 in
  let w' := (execCall env c w).2 in
  locked w' = false
  ∧ fromRun env (cache w')
  ∧ defaultExpiration (cache w') = defaultExpiration (cache w)
  ∧ items (cache w) ⊆ items (cache w')
  ∧ (∀ x, returnedValue r = Some x →
          supported c ∧ asserted c x = true
          ∧ Object <$> items (cache w') !! callKey c = Some x).
Proof.
  intros Hfree Hrun Httl r w'. subst r w'.
  destruct (execCall_cases env w c Hfree) as [_ Hcases].
  destruct Hcases as [(-> & Hr & _)|[(Hsup & x & Hx & -> & _ & Hr)
                     |[(_ & _ & Hr & _ & q & _ & ->)
                      |(Hsup & Hx & _ & q & x & _ & Has & Hr & ->)]]].
  - split_and!; try done. intros y Hy. by rewrite Hr in Hy.
  - split_and!; try done. intros y Hy. rewrite Hr in Hy.
    destruct (asserted c x) eqn:Has; [|done]. injection Hy as <-.
    split_and!; try done.
    unfold getTime in Hx. by rewrite Get_fromRun in Hx.
  - split_and!; try done. intros y Hy. by rewrite Hr in Hy.
  - unfold getTime in Hx. rewrite Get_fromRun in Hx by done.
    assert (Hnone : items (cache w) !! callKey c = None).
    { by destruct (items (cache w) !! callKey c). }
    split_and!; try done.
    + intros k it. unfold afterSet, SetDefault. cbn [cache items defaultExpiration].
      destruct (decide (callKey c = k)) as [<-|Hne].
      * rewrite lookup_insert_eq. intros [= <-]. simpl.
        by exists (length (trace w) + 3)%nat.
      * rewrite lookup_insert_ne by done. apply Hrun.
    + unfold afterSet, SetDefault. cbn [cache items]. by apply insert_subseteq.
    + intros y Hy. rewrite Hr in Hy. injection Hy as <-. split_and!; try done.
      unfold afterSet, SetDefault. cbn [cache items]. by rewrite lookup_insert_eq.
Qed.

Lemma execCalls_grows (env : Env) (cs : list Call) : ∀ w : World,
  locked w = false →
  fromRun env (cache w) →
  withinTTL env (defaultExpiration (cache w)) →
  let w' := (execCalls env cs w).2 in
  locked w' = false
  ∧ fromRun env (cache w')
  ∧ defaultExpiration (cache w') = defaultExpiration (cache w)
  ∧ items (cache w) ⊆ items (cache w').
Proof.
  induction cs as [|c cs IH]; intros w Hfree Hrun Httl; [done|].
  destruct (execCalls_cons env c cs w) as [_ Hw]. cbn zeta. rewrite Hw.
  destruct (execCall_grows env w c Hfree Hrun Httl) as (Hfree1 & Hrun1 & HD1 & Hsub1 & _).
  assert (Httl1 : withinTTL env (defaultExpiration (cache (execCall env c w).2)))
    by (by rewrite HD1).
  destruct (IH _ Hfree1 Hrun1 Httl1) as (Hfree2 & Hrun2 & HD2 & Hsub2).
  split_and!; try done; [congruence|by etrans].
Qed.

End Entries.

(** X4. Within one TTL of the run, once a call has returned a value, every
    later call that computes the same key returns that value from the cache
    without asking EC2, whatever other calls were made in between.  This
    holds for the same call made again, and also for a call with another
    region and parameter whose key is the same string. *)
Theorem cached_value_answers_later_calls `{Imports}
    (env : Env) (w : World) (c c' : Call) (cs : list Call) (x : value) :
  locked w = false →
  fromRun env (cache w) →
  withinTTL env (defaultExpiration (cache w)) →
  returnedValue (execCall env c w).1 = Some x →
  callKey c' = callKey c →
  supported c' →
  let w2 := (execCalls env cs (execCall env c w).2).2 in
  returnedValue (execCall env c' w2).1 = Some x
  ∧ (execCall env c' w2).2 = after w2 [EvLock; EvGet (callKey c); EvUnlock].
Proof.
  intros Hfree Hrun Httl Hret Hkey Hsup w2.
  destruct (execCall_grows env w c Hfree Hrun Httl)
    as (Hfree1 & Hrun1 & HD1 & _ & Hin1).
  destruct (Hin1 x Hret) as (_ & Has & Hx1).
  assert (Httl1 : withinTTL env (defaultExpiration (cache (execCall env c w).2)))
    by (by rewrite HD1).
  destruct (execCalls_grows env cs _ Hfree1 Hrun1 Httl1)
    as (Hfree2 & Hrun2 & HD2 & Hsub2).
  fold w2 in Hfree2, Hrun2, HD2, Hsub2.
  assert (Httl2 : withinTTL env (defaultExpiration (cache w2))) by (by rewrite HD2).
  destruct (items (cache (execCall env c w).2) !! callKey c) as [it|] eqn:Hit; [|done].
  injection Hx1 as Hx1.
  pose proof (lookup_weaken _ _ _ _ Hit Hsub2) as Hit2.
  assert (Hget : Get (getTime env w2) (cache w2) (callKey c') = Some x).
  { unfold getTime. rewrite Get_fromRun by done. by rewrite Hkey, Hit2, <- Hx1. }
  rewrite <- (asserted_same_key c c' x Hkey) in Has.
  rewrite <- Hkey.
  by apply execCall_hit.
Qed.

Lemma cached_value_answers_later_calls_witness :
  locked world0 = false
  ∧ fromRun (answeringEnv [exampleVpc] exampleImages) (cache world0)
  ∧ withinTTL (answeringEnv [exampleVpc] exampleImages) (defaultExpiration (cache world0))
  ∧ callKey (CallVpc {| Region := "us-east" |} "1-vpc-0a")
    = callKey (CallVpc {| Region := "us-east-1" |} "vpc-0a")
  ∧ returnedValue
      (@execCall exampleImports (answeringEnv [exampleVpc] exampleImages)
         (CallVpc {| Region := "us-east" |} "1-vpc-0a")
         (@execCalls exampleImports (answeringEnv [exampleVpc] exampleImages)
            [CallAMI exampleClient "ubuntu"]
            (@execCall exampleImports (answeringEnv [exampleVpc] exampleImages)
               (CallVpc {| Region := "us-east-1" |} "vpc-0a") world0).2).2).1
    = Some (VVpc exampleVpc).
Proof.
  assert (Hrun : fromRun (answeringEnv [exampleVpc] exampleImages) (cache world0)).
  { intros k it Hk. simpl in Hk. by rewrite lookup_empty in Hk. }
  assert (Httl : withinTTL (answeringEnv [exampleVpc] exampleImages)
                   (defaultExpiration (cache world0))).
  { intros i j. apply exampleClock_withinTTL. }
  split; [reflexivity|]. split; [exact Hrun|]. split; [exact Httl|].
  split; [reflexivity|].
  apply (@cached_value_answers_later_calls exampleImports
           (answeringEnv [exampleVpc] exampleImages) world0
           (CallVpc {| Region := "us-east-1" |} "vpc-0a")
           (CallVpc {| Region := "us-east" |} "1-vpc-0a")
           [CallAMI exampleClient "ubuntu"] (VVpc exampleVpc)
           eq_refl Hrun Httl eq_refl eq_refl I).
Defined.

(** X5. Starting from a cache in which every entry sits under a key of the
    lookup that stores its type (the empty cache of the package is one), no
    sequence of calls of [getVpc] and [getDefaultAMIID] ever fails a type
    assertion on what it reads from the cache, and the cache stays that
    way. *)
Theorem calls_never_panic `{Imports} (env : Env) (cs : list Call) (w : World) :
  locked w = false →
  wellTyped (cache w) →
  Forall (λ r, panicked r = false) (execCalls env cs w).1
  ∧ wellTyped (cache (execCalls env cs w).2).
Proof.
  revert w. induction cs as [|c cs IH]; intros w Hfree Hwt; [by split|].
  destruct (execCalls_cons env c cs w) as [-> ->].
  destruct (execCall_wellTyped env w c Hfree Hwt) as [Hp Hwt1].
  destruct (execCall_free env w c Hfree) as (_ & Hfree1 & _).
  destruct (IH _ Hfree1 Hwt1) as [Hps Hwt2].
  split; [by constructor|done].
Qed.

Lemma calls_never_panic_witness :
  locked world0 = false
  ∧ wellTyped (cache world0)
  ∧ Forall (λ r, panicked r = false)
      (@execCalls exampleImports (answeringEnv [exampleVpc] exampleImages)
         [CallVpc exampleClient "vpc-0a"; CallAMI exampleClient "ubuntu";
          CallVpc exampleClient "vpc-0a"] world0).1.
Proof.
  assert (Hwt : wellTyped (cache world0)).
  { intros k it Hk. simpl in Hk. by rewrite lookup_empty in Hk. }
  split; [reflexivity|]. split; [exact Hwt|].
  apply (@calls_never_panic exampleImports (answeringEnv [exampleVpc] exampleImages)
           [CallVpc exampleClient "vpc-0a"; CallAMI exampleClient "ubuntu";
            CallVpc exampleClient "vpc-0a"] world0 eq_refl Hwt).
Defined.

(** X6. An entry is served only while it is fresh.  A call that finds an
    entry of its type under its key and reads the clock before the entry's
    expiration returns the entry with no other effect; a call that reads
    the clock after the expiration asks EC2 again, and either replaces the
    entry by the value it returns, with an expiration of one TTL after the
    write, or returns no value and leaves the cache as it was. *)
Theorem entry_served_only_while_fresh `{Imports}
    (env : Env) (w : World) (c : Call) (it : Item) :
  locked w = false →
  supported c →
  items (cache w) !! callKey c = Some it →
  asserted c (Object it) = true →
  let r := (execCall env c w).1 in
  let w' := (execCall env c w).2 in
  (getTime env w < Expiration it →
   returnedValue r = Some (Object it)
   ∧ w' = after w [EvLock; EvGet (callKey c); EvUnlock])
  ∧ (Expiration it < getTime env w →
     queries (trace w') = S (queries (trace w))
     ∧ (∀ x, returnedValue r = Some x →
             items (cache w') !! callKey c
             = Some {| Object := x;
                       Expiration := setTime env w + defaultExpiration (cache w) |})
     ∧ (returnedValue r = None → cache w' = cache w)).
Proof.
  intros Hfree Hsup Hit Has r w'. subst r w'. split.
  - intros Hfresh. apply execCall_hit; try done. by apply Get_fresh.
  - intros Hold.
    assert (Hmiss : Get (getTime env w) (cache w) (callKey c) = None).
    { apply (Get_expired _ _ _ it); [done|lia]. }
    destruct (execCall_cases env w c Hfree) as [_ Hcases].
    destruct Hcases as [(_ & _ & _ & Hn)|[(_ & y & Hy & _)
                       |[(_ & _ & Hr & _ & q & Hq & ->)
                        |(_ & _ & _ & q & x & Hq & _ & Hr & ->)]]];
      try done; try congruence.
    + split_and!; try done.
      * unfold after. cbn [trace]. rewrite queries_app.
        cbn [queries List.filter isQuery length]. rewrite Hq. simpl. lia.
      * intros x Hx. by rewrite Hr in Hx.
    + split_and!.
      * unfold afterSet. cbn [trace]. rewrite queries_app.
        cbn [queries List.filter isQuery length]. rewrite Hq. simpl. lia.
      * intros y Hy. rewrite Hr in Hy. injection Hy as <-.
        unfold afterSet, SetDefault. cbn [cache items]. by rewrite lookup_insert_eq.
      * intros Hnone. by rewrite Hr in Hnone.
Qed.

Lemma entry_served_only_while_fresh_witness :
  locked (worldWithVpc 0) = false
  ∧ items (cache (worldWithVpc 0)) !! callKey (CallVpc exampleClient "vpc-0a")
    = Some {| Object := VVpc exampleVpc; Expiration := 0 |}
  ∧ 0 < getTime (answeringEnv [otherVpc] []) (worldWithVpc 0)
  ∧ queries (trace (@execCall exampleImports (answeringEnv [otherVpc] [])
                      (CallVpc exampleClient "vpc-0a") (worldWithVpc 0)).2)
    = S (queries (trace (worldWithVpc 0))).
Proof.
  assert (Hlate : 0 < getTime (answeringEnv [otherVpc] []) (worldWithVpc 0)).
  { reflexivity. }
  split; [reflexivity|]. split; [reflexivity|]. split; [exact Hlate|].
  apply (proj2 (@entry_served_only_while_fresh exampleImports
                  (answeringEnv [otherVpc] []) (worldWithVpc 0)
                  (CallVpc exampleClient "vpc-0a")
                  {| Object := VVpc exampleVpc; Expiration := 0 |}
                  eq_refl I eq_refl eq_refl) Hlate).
Defined.

(** ** Ties between candidates *)

Section Ties.
Context `{Imports}.

Lemma After_true (t u : Time) :
  After t u = true ↔ sec u < sec t ∨ (sec t = sec u ∧ nsec u < nsec t).
Proof.
  unfold After. rewrite orb_true_iff, andb_true_iff, !Z.ltb_lt, Z.eqb_eq. tauto.
Qed.

Lemma After_false (t u : Time) :
  After t u = false ↔ ¬ (sec u < sec t ∨ (sec t = sec u ∧ nsec u < nsec t)).
Proof. rewrite <- After_true. by destruct (After t u). Qed.

Lemma After_trans (a b c : Time) :
  After a b = true → After b c = true → After a c = true.
Proof. rewrite !After_true. lia. Qed.

Lemma After_not_After_l (a b c : Time) :
  After a b = true → After c b = false → After a c = true.
Proof. rewrite !After_true, After_false. lia. Qed.

Lemma not_After_antisym (a b : Time) :
  After a b = false → After b a = false → a = b.
Proof.
  rewrite !After_false. destruct a as [sa na], b as [sb nb]. simpl.
  intros Hab Hba. f_equal; lia.
Qed.

Lemma newer_self (image : Image) : newer image image = image.
Proof. unfold newer. by rewrite After_irrefl. Qed.

(** The loop keeps its starting candidate when no candidate is after it, and
    otherwise ends on the first candidate that is after the starting one and
    after everything before it, with nothing after it later in the list. *)
Lemma newestImage_first (images : list Image) : ∀ image0 : Image,
  let r := newestImage image0 images in
  (r = image0
   ∧ Forall (λ v, After (parsedOrZero (CreationDate v))
                        (parsedOrZero (CreationDate image0)) = false) images)
  ∨ (∃ pre post,
        images = (pre ++ r :: post)%list
        ∧ After (parsedOrZero (CreationDate r)) (parsedOrZero (CreationDate image0)) = true
        ∧ Forall (λ v, After (parsedOrZero (CreationDate r))
                             (parsedOrZero (CreationDate v)) = true) pre
        ∧ Forall (λ v, After (parsedOrZero (CreationDate v))
                             (parsedOrZero (CreationDate r)) = false) post).
Proof.
  induction images as [|v images IH]; intros image0; cbn zeta.
  - left. by split.
  - change (newestImage image0 (v :: images)) with (newestImage (newer image0 v) images).
    destruct (After (parsedOrZero (CreationDate v)) (parsedOrZero (CreationDate image0)))
      eqn:Hv.
    + assert (Hn : newer image0 v = v) by (unfold newer; by rewrite Hv). rewrite Hn.
      pose proof (IH v) as IHv. cbn zeta in IHv.
      remember (newestImage v images) as r eqn:Er. clear Er.
      destruct IHv as [[Hr Hall]|(pre & post & -> & Hrv & Hpre & Hpost)].
      * right. exists [], images. rewrite Hr. by split_and!.
      * right. exists (v :: pre), post. split_and!; try done.
        -- by eapply After_trans.
        -- by constructor.
    + assert (Hn : newer image0 v = image0) by (unfold newer; by rewrite Hv). rewrite Hn.
      pose proof (IH image0) as IH0. cbn zeta in IH0.
      remember (newestImage image0 images) as r eqn:Er. clear Er.
      destruct IH0 as [[Hr Hall]|(pre & post & -> & Hr0 & Hpre & Hpost)].
      * left. split; [done|]. by constructor.
      * right. exists (v :: pre), post. split_and!; try done.
        constructor; [|done]. by eapply After_not_After_l.
Qed.

End Ties.

(** X7. Among the candidates of a [DescribeImages] answer the loop of
    [getDefaultAMIID] picks the first one that no candidate is newer than:
    every candidate before it in the answer is strictly older, and no
    candidate after it is newer (unparsable timestamps counting as the zero
    time). *)
Theorem first_of_the_newest_wins `{Imports} (image0 : Image) (rest : list Image) :
  let best := newestImage image0 (image0 :: rest) in
  ∃ pre post,
    image0 :: rest = (pre ++ best :: post)%list
    ∧ Forall (λ v, After (parsedOrZero (CreationDate best))
                         (parsedOrZero (CreationDate v)) = true) pre
    ∧ Forall (λ v, After (parsedOrZero (CreationDate v))
                         (parsedOrZero (CreationDate best)) = false) post.
Proof.
  cbn zeta.
  change (newestImage image0 (image0 :: rest))
    with (newestImage (newer image0 image0) rest).
  rewrite newer_self.
  pose proof (newestImage_first rest image0) as Hfirst. cbn zeta in Hfirst.
  remember (newestImage image0 rest) as r eqn:Er. clear Er.
  destruct Hfirst as [[-> Hall]|(pre & post & -> & Hr0 & Hpre & Hpost)].
  - by exists [], rest.
  - exists (image0 :: pre), post. split_and!; try done. by constructor.
Qed.

(** X8. The creation time of the image that [getDefaultAMIID] picks does not
    depend on the order in which EC2 lists the candidates: two answers with
    the same candidates in any order give picks with the same time. *)
Theorem newest_time_ignores_the_order `{Imports}
    (image0 image0' : Image) (rest rest' : list Image) :
  image0 :: rest ≡ₚ image0' :: rest' →
  parsedOrZero (CreationDate (newestImage image0 (image0 :: rest)))
  = parsedOrZero (CreationDate (newestImage image0' (image0' :: rest'))).
Proof.
  intros Hperm.
  destruct (newestImage_latest (image0 :: rest) image0) as (Hin & _ & Hall).
  destruct (newestImage_latest (image0' :: rest') image0') as (Hin' & _ & Hall').
  assert (Hr : In (newestImage image0 (image0 :: rest)) (image0 :: rest)).
  { destruct Hin as [->|Hin]; [by left|done]. }
  assert (Hr' : In (newestImage image0' (image0' :: rest')) (image0' :: rest')).
  { destruct Hin' as [->|Hin']; [by left|done]. }
  rewrite List.Forall_forall in Hall, Hall'.
  apply not_After_antisym.
  - apply Hall'. eapply Permutation_in; [exact Hperm|done].
  - apply Hall. eapply Permutation_in; [symmetry; exact Hperm|done].
Qed.

Lemma newest_time_ignores_the_order_witness :
  exampleImages ≡ₚ rev exampleImages
  ∧ @parsedOrZero exampleImports
      (CreationDate (@newestImage exampleImports
         {| ImageId := "ami-2020"; CreationDate := "2020-01-01T00:00:00Z" |}
         exampleImages))
    = @parsedOrZero exampleImports
        (CreationDate (@newestImage exampleImports
           {| ImageId := "ami-garbage"; CreationDate := "garbage" |}
           (rev exampleImages))).
Proof.
  assert (Hperm : exampleImages ≡ₚ rev exampleImages).
  { apply Permutation_rev. }
  split; [exact Hperm|].
  apply (@newest_time_ignores_the_order exampleImports
           {| ImageId := "ami-2020"; CreationDate := "2020-01-01T00:00:00Z" |}
           {| ImageId := "ami-garbage"; CreationDate := "garbage" |}
           [ {| ImageId := "ami-2021"; CreationDate := "2021-06-15T00:00:00Z" |};
             {| ImageId := "ami-garbage"; CreationDate := "garbage" |} ]
           [ {| ImageId := "ami-2021"; CreationDate := "2021-06-15T00:00:00Z" |};
             {| ImageId := "ami-2020"; CreationDate := "2020-01-01T00:00:00Z" |} ]
           Hperm).
Defined.

(** ** Goroutines in different calls *)

Section Exclusion.
Context `{Imports} (env : Env).

Lemma inside_defer_Unlock {R : Type} (q : prog R) :
  nolock q → inside (defer_Unlock q) = true.
Proof. by destruct q. Qed.

(** A step of what is left of a call: it takes the free lock, or it runs the
    next effect under the lock and stays inside or leaves with the lock
    released. *)
Lemma step_wellFormed {R : Type} (p p' : prog R) (w w' : World) :
  wellFormed p →
  (inside p = true → locked w = true) →
  step env p w = Some (p', w') →
  wellFormed p'
  ∧ length (trace w') = S (length (trace w))
  ∧ ((inside p = false ∧ locked w = false ∧ inside p' = true ∧ locked w' = true)
     ∨ (inside p = true ∧ inside p' = true ∧ locked w' = true)
     ∨ (inside p = true ∧ inside p' = false ∧ locked w' = false)).
Proof.
  intros [Hfin|(q & Hq & [->| ->])] Hin Hstep.
  - by rewrite step_finished in Hstep.
  - simpl in Hstep. destruct (locked w) eqn:Hl; [done|]. injection Hstep as <- <-.
    split; [right; exists q; auto|]. split.
    + simpl. rewrite length_app. simpl. lia.
    + left. split_and!; try done. by apply inside_defer_Unlock.
  - pose proof (Hin (inside_defer_Unlock q Hq)) as Hheld.
    destruct (step_defer_Unlock env q w Hq Hheld) as (p'' & w'' & Hs & Hlen & Hcase).
    rewrite Hstep in Hs. injection Hs as <- <-.
    split; [|split; [done|]].
    + destruct Hcase as [(q' & -> & Hq' & _)|[Hfin _]]; [right; exists q'; auto|by left].
    + right. rewrite (inside_defer_Unlock q Hq).
      destruct Hcase as [(q' & -> & Hq' & Hheld')|[Hfin Hfree']].
      * left. split_and!; try done. by apply inside_defer_Unlock.
      * right. split_and!; try done. unfold inside. rewrite Hfin. apply andb_false_r.
Qed.

(** While the lock is held, a goroutine that is not inside a call cannot
    run. *)
Lemma step_outside_held {R : Type} (p : prog R) (w : World) :
  wellFormed p → inside p = false → locked w = true → step env p w = None.
Proof.
  intros [Hfin|(q & Hq & [->| ->])] Hout Hheld.
  - by apply step_finished.
  - simpl. by rewrite Hheld.
  - by rewrite inside_defer_Unlock in Hout.
Qed.

(** A goroutine that has not returned can run when it is inside a call, and
    when the lock is free. *)
Lemma step_enabled {R : Type} (p : prog R) (w : World) :
  wellFormed p → finished p = false →
  (inside p = true ∧ locked w = true) ∨ locked w = false →
  (inside p = true → locked w = true) →
  ∃ p' w', step env p w = Some (p', w').
Proof.
  intros [Hfin|(q & Hq & [->| ->])] Hrun Hcan Hin; [congruence|..].
  - destruct Hcan as [[Hi _]|Hfree]; [done|]. simpl. rewrite Hfree. eauto.
  - pose proof (Hin (inside_defer_Unlock q Hq)) as Hheld.
    destruct (step_defer_Unlock env q w Hq Hheld) as (p' & w' & Hs & _). eauto.
Qed.

Lemma stepG_wellFormed (g g' : Goroutine) (w w' : World) :
  wellFormedG g →
  (insideG g = true → locked w = true) →
  stepG env g w = Some (g', w') →
  wellFormedG g'
  ∧ length (trace w') = S (length (trace w))
  ∧ ((insideG g = false ∧ locked w = false ∧ insideG g' = true ∧ locked w' = true)
     ∨ (insideG g = true ∧ insideG g' = true ∧ locked w' = true)
     ∨ (insideG g = true ∧ insideG g' = false ∧ locked w' = false)).
Proof.
  destruct g as [p|p]; simpl; intros Hwf Hin;
    destruct (step env p w) as [[p' w1]|] eqn:Hstep; try done;
    intros [= <- <-]; simpl; by apply (step_wellFormed p p' w w1).
Qed.

Lemma stepG_outside_held (g : Goroutine) (w : World) :
  wellFormedG g → insideG g = false → locked w = true → stepG env g w = None.
Proof.
  destruct g as [p|p]; simpl; intros Hwf Hout Hheld;
    by rewrite (step_outside_held p w Hwf Hout Hheld).
Qed.

Lemma wellFormed_spawn (c : Call) : wellFormedG (spawn c).
Proof.
  destruct c as [client id|client os]; simpl; right.
  - exists (getVpcBody client id). split; [apply nolock_getVpcBody|by left].
  - exists (getDefaultAMIIDBody client os).
    split; [apply nolock_getDefaultAMIIDBody|by left].
Qed.

Lemma inside_spawn (c : Call) : insideG (spawn c) = false.
Proof. by destruct c. Qed.

Lemma exclusive_init (cs : list Call) (w : World) :
  locked w = false → exclusive (spawn <$> cs, w).
Proof.
  intros Hfree. unfold exclusive. cbn [fst snd]. split_and!.
  - intros i g Hi. apply list_lookup_fmap_Some in Hi as (c & -> & _).
    apply wellFormed_spawn.
  - intros _ i g Hi. apply list_lookup_fmap_Some in Hi as (c & -> & _).
    apply inside_spawn.
  - by rewrite Hfree.
Qed.

Lemma exclusive_schedule (cfg : list Goroutine * World) (tid : nat) :
  exclusive cfg → exclusive (scheduleG env cfg tid).
Proof.
  destruct cfg as [pool w]. unfold scheduleG. cbn [fst snd].
  destruct (pool !! tid) as [g|] eqn:Hg; [|done].
  destruct (stepG env g w) as [[g' w']|] eqn:Hstep; [|done].
  intros (Hwf & Hfree & Hheld). cbn [fst snd] in *.
  pose proof (lookup_lt_Some _ _ _ Hg) as Hlt.
  assert (Hin : insideG g = true → locked w = true).
  { intros Hi. destruct (locked w) eqn:Hl; [done|].
    by rewrite (Hfree eq_refl _ _ Hg) in Hi. }
  destruct (stepG_wellFormed g g' w w' (Hwf _ _ Hg) Hin Hstep)
    as (Hwf' & _ & Hcase).
  assert (Hothers : ∀ j g1, j ≠ tid → pool !! j = Some g1 → insideG g1 = false).
  { intros j g1 Hne Hj.
    destruct Hcase as [(_ & Hl & _)|[(Hi & _)|(Hi & _)]].
    - by apply (Hfree Hl j).
    - destruct (Hheld (Hin Hi)) as (t0 & g0 & Ht0 & Hi0 & Hrest).
      destruct (decide (tid = t0)) as [->|Hne0]; [by apply (Hrest j)|].
      by rewrite (Hrest _ _ Hne0 Hg) in Hi.
    - destruct (Hheld (Hin Hi)) as (t0 & g0 & Ht0 & Hi0 & Hrest).
      destruct (decide (tid = t0)) as [->|Hne0]; [by apply (Hrest j)|].
      by rewrite (Hrest _ _ Hne0 Hg) in Hi. }
  unfold exclusive. cbn [fst snd]. split_and!.
  - intros i g1 Hi. destruct (decide (i = tid)) as [->|Hne].
    + rewrite list_lookup_insert_eq in Hi by done. by injection Hi as <-.
    + rewrite list_lookup_insert_ne in Hi by done. eauto.
  - intros Hl i g1 Hi. destruct (decide (i = tid)) as [->|Hne].
    + rewrite list_lookup_insert_eq in Hi by done. injection Hi as <-.
      destruct Hcase as [(_ & _ & _ & Hl')|[(_ & _ & Hl')|(_ & Ho & _)]];
        [congruence|congruence|done].
    + rewrite list_lookup_insert_ne in Hi by done. eauto.
  - intros Hl. exists tid, g'. split; [by rewrite list_lookup_insert_eq|]. split.
    + destruct Hcase as [(_ & _ & Hi' & _)|[(_ & Hi' & _)|(_ & _ & Hl')]];
        [done|done|congruence].
    + intros j g1 Hne Hj. rewrite list_lookup_insert_ne in Hj by done. eauto.
Qed.

Lemma exclusive_run (sched : list nat) : ∀ cfg : list Goroutine * World,
  exclusive cfg → exclusive (runG env sched cfg).
Proof.
  induction sched as [|tid sched IH]; intros cfg Hcfg; [done|].
  change (runG env (tid :: sched) cfg) with (runG env sched (scheduleG env cfg tid)).
  apply IH. by apply exclusive_schedule.
Qed.

End Exclusion.

(** X9. Goroutines that call [getVpc] and [getDefaultAMIID], for any keys,
    under any schedule: at most one goroutine is inside a call at any time,
    and one is inside exactly while the lock is held; while it is held no
    other goroutine makes a step, whatever key it asks for; and as long as
    some goroutine has not returned, some goroutine can make a step. *)
Theorem one_goroutine_inside_at_a_time `{Imports}
    (env : Env) (cs : list Call) (sched : list nat) (w : World) :
  locked w = false →
  let cfg := runG env sched (spawn <$> cs, w) in
  (∀ i j gi gj, cfg.1 !! i = Some gi → cfg.1 !! j = Some gj →
                insideG gi = true → insideG gj = true → i = j)
  ∧ (locked cfg.2 = true ↔ ∃ i g, cfg.1 !! i = Some g ∧ insideG g = true)
  ∧ (locked cfg.2 = true →
     ∀ i g, cfg.1 !! i = Some g → insideG g = false → scheduleG env cfg i = cfg)
  ∧ (Exists (λ g, finishedG g = false) cfg.1 →
     ∃ tid, length (trace (scheduleG env cfg tid).2) = S (length (trace cfg.2))).
Proof.
  intros Hfree0 cfg.
  assert (Hex : exclusive cfg).
  { apply exclusive_run. by apply exclusive_init. }
  destruct cfg as [pool w1]. destruct Hex as (Hwf & Hfree & Hheld). cbn [fst snd] in *.
  split_and!.
  - intros i j gi gj Hi Hj Hini Hinj.
    destruct (locked w1) eqn:Hl.
    + destruct (Hheld eq_refl) as (t0 & g0 & _ & _ & Hrest).
      destruct (decide (i = t0)) as [->|Hi0];
        [|by rewrite (Hrest _ _ Hi0 Hi) in Hini].
      destruct (decide (j = t0)) as [->|Hj0];
        [done|by rewrite (Hrest _ _ Hj0 Hj) in Hinj].
    + by rewrite (Hfree eq_refl _ _ Hi) in Hini.
  - split.
    + intros Hl. destruct (Hheld Hl) as (t0 & g0 & Ht0 & Hi0 & _). eauto.
    + intros (i & g & Hi & Hin). destruct (locked w1) eqn:Hl; [done|].
      by rewrite (Hfree eq_refl _ _ Hi) in Hin.
  - intros Hl i g Hi Hout. unfold scheduleG. cbn [fst snd]. rewrite Hi.
    by rewrite (stepG_outside_held env g w1 (Hwf _ _ Hi) Hout Hl).
  - intros Hsome. destruct (locked w1) eqn:Hl.
    + destruct (Hheld eq_refl) as (t0 & g0 & Ht0 & Hi0 & _).
      exists t0. unfold scheduleG. cbn [fst snd]. rewrite Ht0.
      assert (Hstep : ∃ g' w', stepG env g0 w1 = Some (g', w')).
      { pose proof (Hwf _ _ Ht0) as Hwf0.
        destruct g0 as [p|p]; simpl in *;
          (destruct (step_enabled env p w1 Hwf0) as (p' & w' & ->);
           [by destruct p|by left|done|eauto]). }
      destruct Hstep as (g' & w' & Hstep). rewrite Hstep. cbn [snd].
      by destruct (stepG_wellFormed env g0 g' w1 w' (Hwf _ _ Ht0) (λ _, Hl) Hstep)
        as (_ & Hlen & _).
    + apply Exists_exists in Hsome as (g & Hin & Hrun).
      apply list_elem_of_lookup in Hin as [tid Htid].
      exists tid. unfold scheduleG. cbn [fst snd]. rewrite Htid.
      pose proof (Hfree eq_refl _ _ Htid) as Hout.
      assert (Hstep : ∃ g' w', stepG env g w1 = Some (g', w')).
      { pose proof (Hwf _ _ Htid) as Hwf0.
        destruct g as [p|p]; simpl in *;
          (destruct (step_enabled env p w1 Hwf0) as (p' & w' & ->);
           [done|by right|by rewrite Hout|eauto]). }
      destruct Hstep as (g' & w' & Hstep). rewrite Hstep. cbn [snd].
      assert (Hin' : insideG g = true → locked w1 = true) by (by rewrite Hout).
      by destruct (stepG_wellFormed env g g' w1 w' (Hwf _ _ Htid) Hin' Hstep)
        as (_ & Hlen & _).
Qed.

Lemma one_goroutine_inside_at_a_time_witness :
  locked world0 = false
  ∧ locked (runG (answeringEnv [exampleVpc] exampleImages) [1; 0; 1]%nat
              (@spawn exampleImports
                 <$> [CallVpc exampleClient "vpc-0a"; CallAMI exampleClient "ubuntu"],
               world0)).2 = true
  ∧ scheduleG (answeringEnv [exampleVpc] exampleImages)
      (runG (answeringEnv [exampleVpc] exampleImages) [1; 0; 1]%nat
         (@spawn exampleImports
            <$> [CallVpc exampleClient "vpc-0a"; CallAMI exampleClient "ubuntu"],
          world0)) 0%nat
    = runG (answeringEnv [exampleVpc] exampleImages) [1; 0; 1]%nat
        (@spawn exampleImports
           <$> [CallVpc exampleClient "vpc-0a"; CallAMI exampleClient "ubuntu"],
         world0).
Proof.
  split; [reflexivity|]. split; [reflexivity|].
  apply (proj1 (proj2 (proj2 (@one_goroutine_inside_at_a_time exampleImports
           (answeringEnv [exampleVpc] exampleImages)
           [CallVpc exampleClient "vpc-0a"; CallAMI exampleClient "ubuntu"]
           [1; 0; 1]%nat world0 eq_refl))) eq_refl 0%nat
           (GoVpc (getVpc exampleClient "vpc-0a"))).
  - reflexivity.
  - reflexivity.
Defined.

(** * Container runtime *)

(** X10. [DockerSystemdUnit] never fails: it returns the template with the
    action replaced, by a line "TasksMax=infinity" between two empty lines
    when [setTasksMax] is set and by nothing otherwise; the unit sets
    TasksMax exactly when asked to, and no template delimiter is left in
    it. *)
Theorem docker_unit_sets_TasksMax_when_asked (setTasksMax : bool) :
  DockerSystemdUnit setTasksMax
  = inl (joinLines unitTplHead +:+ nl
         +:+ (if setTasksMax then nl +:+ "TasksMax=infinity" +:+ nl else EmptyString)
         +:+ nl +:+ joinLines unitTplTail)
  ∧ String.index 0 "TasksMax=infinity" (joinLines unitTplHead) = None
  ∧ String.index 0 "TasksMax=infinity" (joinLines unitTplTail) = None
  ∧ String.index 0 "{{" (joinLines unitTplHead +:+ joinLines unitTplTail) = None.
Proof. destruct setTasksMax; vm_compute; by split_and!. Qed.
